(** * Schema flattening of the Axiom MCP server

    A shallow embedding of [src/helpers/convertToSchemaJSON.js]:
    the zod schema [fieldsSchema], the flattening function
    [convertSchemaToJSON] and the renderer [getStringifiedSchema].

    The file is a CommonJS module without a strict-mode directive, so the
    functions run in sloppy mode: writing a property on a primitive value
    is silently dropped instead of raising [TypeError]. *)

From Stdlib Require Import String Ascii List ZArith NArith Bool Lia.
From Stdlib Require Import Permutation.
Import ListNotations.

Set Warnings "-register-all".

Open Scope string_scope.
Open Scope list_scope.

Infix "+++" := String.append (at level 60, right associativity).

(** ** What a call can end in *)

Module Run.

(** The exceptions the helper can let escape. *)
Inductive exn : Type :=
| ZodError    (* thrown by [fieldsSchema.parse] *)
| RangeError  (* thrown by [String.prototype.repeat] on a negative count *)
| TypeError.  (* thrown by the [__proto__] setter of [Object.prototype] *)

(** [Done a]: the call returns [a].  [Raise e]: it throws [e].
    [Escapes]: the path walk may have left the objects created by the
    call and continued inside one of the runtime's built-in objects (a
    function or prototype reached through the prototype chain); what
    happens there depends on the state of the runtime and is not
    described here, one case apart: a walk that climbs the [__proto__]
    chain to its end and goes on throws, and is given as
    [Raise TypeError]. *)
Inductive outcome (A : Type) : Type :=
| Done (a : A)
| Raise (e : exn)
| Escapes.

Arguments Done {A} a.
Arguments Raise {A} e.
Arguments Escapes {A}.

Definition bind {A B : Type} (m : outcome A) (k : A -> outcome B) : outcome B :=
  match m with
  | Done a => k a
  | Raise e => Raise e
  | Escapes => Escapes
  end.

End Run.

Import Run.

Notation "x <- m ;; k" := (bind m (fun x => k))
  (at level 61, m at next level, right associativity).

(** ** The parts of JavaScript the helper relies on *)

Module Js.

(** *** Strings *)

Definition dot : ascii := "."%char.
Definition newline : string := String (ascii_of_nat 10) EmptyString.

(** [s.split(".")]: always at least one segment. *)
Fixpoint split (s : string) : list string :=
  match s with
  | EmptyString => [EmptyString]
  | String c rest =>
      if Ascii.eqb c dot then EmptyString :: split rest
      else match split rest with
           | seg :: segs => String c seg :: segs
           | [] => [String c EmptyString]
           end
  end.

Fixpoint spaces (n : nat) : string :=
  match n with
  | O => EmptyString
  | S m => String " "%char (spaces m)
  end.

(** [" ".repeat(count)]: a negative count is a [RangeError]. *)
Definition repeat_space (count : Z) : outcome string :=
  if (count <? 0)%Z then Raise RangeError else Done (spaces (Z.to_nat count)).

(** [lines.join(sep)] *)
Fixpoint join (sep : string) (lines : list string) : string :=
  match lines with
  | [] => EmptyString
  | [l] => l
  | l :: rest => l +++ sep +++ join sep rest
  end.

(** *** Array indices

    A property key is an array index when it is the canonical decimal
    form of an integer between 0 and 2^32 - 2.  Such keys are enumerated
    before all other keys, in ascending numeric order. *)

Definition digit (c : ascii) : option N :=
  let n := N_of_ascii c in
  if ((48 <=? n) && (n <=? 57))%N then Some (n - 48)%N else None.

Fixpoint digits (s : string) (acc : N) : option N :=
  match s with
  | EmptyString => Some acc
  | String c rest =>
      match digit c with
      | Some d => digits rest (10 * acc + d)%N
      | None => None
      end
  end.

Definition array_index (key : string) : option N :=
  match key with
  | EmptyString => None
  | String c rest =>
      if Ascii.eqb c "0"%char && negb (String.eqb rest EmptyString) then None
      else match digits key 0%N with
           | Some n => if (n <=? 4294967294)%N then Some n else None
           | None => None
           end
  end.

Definition is_index (key : string) : bool :=
  match array_index key with Some _ => true | None => false end.

(** *** Values and ordinary objects

    The values the flattener stores are type strings and nested objects.
    An object is the list of its own properties in the order
    [Object.entries] reports them: array-index keys first (ascending),
    then the other keys in the order they were created. *)

Inductive value : Type :=
| Str (s : string)
| Obj (props : list (string * value)).

Definition object : Type := list (string * value).

Fixpoint lookup (key : string) (o : object) : option value :=
  match o with
  | [] => None
  | (k, v) :: rest => if String.eqb k key then Some v else lookup key rest
  end.

(** Overwriting an existing own property keeps its place. *)
Fixpoint update (key : string) (v : value) (o : object) : object :=
  match o with
  | [] => []
  | (k, w) :: rest =>
      if String.eqb k key then (k, v) :: rest else (k, w) :: update key v rest
  end.

(** A new array-index key goes before the first key that is not a
    smaller array index. *)
Fixpoint place_index (n : N) (key : string) (v : value) (o : object) : object :=
  match o with
  | [] => [(key, v)]
  | (k, w) :: rest =>
      match array_index k with
      | Some m => if (m <? n)%N then (k, w) :: place_index n key v rest
                  else (key, v) :: o
      | None => (key, v) :: o
      end
  end.

(** Creating an own property that does not exist yet. *)
Definition define_own (key : string) (v : value) (o : object) : object :=
  match array_index key with
  | Some n => place_index n key v o
  | None => o ++ [(key, v)]
  end.

(** [o[key] = v] on an ordinary object whose prototype chain has no
    setter for [key]. *)
Definition set (key : string) (v : value) (o : object) : object :=
  match lookup key o with
  | Some _ => update key v o
  | None => define_own key v o
  end.

Definition keys (o : object) : list string := map fst o.

(** *** The prototype chain

    Every object literal inherits these properties from
    [Object.prototype]; all of them hold functions, except [__proto__],
    an accessor that yields [Object.prototype] itself and whose setter
    ignores a string. *)
Definition object_prototype_keys : list string :=
  [ "constructor"; "__defineGetter__"; "__defineSetter__"; "hasOwnProperty";
    "__lookupGetter__"; "__lookupSetter__"; "isPrototypeOf";
    "propertyIsEnumerable"; "toString"; "valueOf"; "__proto__";
    "toLocaleString" ].

Definition mem (key : string) (l : list string) : bool :=
  existsb (String.eqb key) l.

Definition inherited (key : string) : bool := mem key object_prototype_keys.

(** Names [String.prototype] supplies to a primitive string. *)
Definition string_prototype_keys : list string :=
  [ "anchor"; "at"; "big"; "blink"; "bold"; "charAt"; "charCodeAt";
    "codePointAt"; "concat"; "endsWith"; "fixed"; "fontcolor"; "fontsize";
    "includes"; "indexOf"; "isWellFormed"; "italics"; "lastIndexOf"; "link";
    "localeCompare"; "match"; "matchAll"; "normalize"; "padEnd"; "padStart";
    "repeat"; "replace"; "replaceAll"; "search"; "slice"; "small"; "split";
    "startsWith"; "strike"; "sub"; "substr"; "substring"; "sup";
    "toLocaleLowerCase"; "toLocaleUpperCase"; "toLowerCase"; "toUpperCase";
    "toWellFormed"; "trim"; "trimEnd"; "trimLeft"; "trimRight"; "trimStart" ].

(** Names [Number.prototype] supplies to a primitive number. *)
Definition number_prototype_keys : list string :=
  [ "toExponential"; "toFixed"; "toPrecision" ].

(** A key that reads as a built-in function or prototype on some
    primitive or object literal. *)
Definition builtin_property (key : string) : bool :=
  inherited key || mem key string_prototype_keys
  || mem key number_prototype_keys.

(** What reading [current[key]] on an ordinary object finds. *)
Inductive slot : Type :=
| Missing               (* undefined *)
| Own (v : value)       (* an own property *)
| Inherited.            (* a built-in reached through the prototype chain *)

Definition get (current : object) (key : string) : slot :=
  match lookup key current with
  | Some v => Own v
  | None => if inherited key then Inherited else Missing
  end.

(** Truthiness of a stored value: only the empty string is falsy. *)
Definition truthy (v : value) : bool :=
  match v with
  | Str s => negb (String.eqb s EmptyString)
  | Obj _ => true
  end.

(** *** JSON data, as the upstream response supplies it *)

Inductive json : Type :=
| JNull
| JBool (b : bool)
| JNum (literal : string)   (* never inspected beyond its tag *)
| JStr (s : string)
| JArr (items : list json)
| JObj (members : list (string * json)).

(** [data[key]] on a parsed JSON object; [None] is [undefined]. *)
Fixpoint member (key : string) (members : list (string * json)) : option json :=
  match members with
  | [] => None
  | (k, v) :: rest => if String.eqb k key then Some v else member key rest
  end.

End Js.

Import Js.

(** ** The zod schemas (source lines 4-13) *)

Module Zod.

(** A validated, fully defaulted field descriptor. *)
Record field : Type := Field {
  name : string;
  type : string;
  unit : string;
  hidden : bool;
  description : string
}.

(** [z.string()]: the value must be present and a string; every string,
    the empty one included, passes. *)
Definition string_ (v : option json) : option string :=
  match v with
  | Some (JStr s) => Some s
  | _ => None
  end.

(** [z.string().optional().default(d)]: [undefined] becomes [d]; anything
    present must be a string. *)
Definition string_default (d : string) (v : option json) : option string :=
  match v with
  | None => Some d
  | Some (JStr s) => Some s
  | Some _ => None
  end.

(** [z.boolean().optional().default(d)] *)
Definition boolean_default (d : bool) (v : option json) : option bool :=
  match v with
  | None => Some d
  | Some (JBool b) => Some b
  | Some _ => None
  end.

(** [fieldSchema]: a [z.object], so the input must be an object; unknown
    keys are stripped. *)
Definition fieldSchema (input : json) : option field :=
  match input with
  | JObj members =>
      match string_ (member "name" members),
            string_default "any" (member "type" members),
            string_default "" (member "unit" members),
            boolean_default false (member "hidden" members),
            string_default "" (member "description" members) with
      | Some n, Some t, Some u, Some h, Some d => Some (Field n t u h d)
      | _, _, _, _, _ => None
      end
  | _ => None
  end.

Fixpoint each (items : list json) : option (list field) :=
  match items with
  | [] => Some []
  | item :: rest =>
      match fieldSchema item, each rest with
      | Some f, Some fs => Some (f :: fs)
      | _, _ => None
      end
  end.

(** [fieldsSchema.parse(fields)]: [z.array(fieldSchema)]; one failing
    element makes the whole parse throw. *)
Definition fieldsSchema_parse (fields : json) : outcome (list field) :=
  match fields with
  | JArr items =>
      match each items with
      | Some fs => Done fs
      | None => Raise ZodError
      end
  | _ => Raise ZodError
  end.

End Zod.

Import Zod.

(** ** The flattener and the renderer *)

Module Schema.

(** The rest of a path walked once [current] has become a terminal type
    string.  Writes on a primitive are dropped.  Reading a character
    index or [length] yields another primitive; reading a key that is
    [undefined] turns [current] into a fresh object literal that is not
    part of the tree, and the remaining segments are created inside it.
    None of this touches the tree.  Only a segment before the last one
    that names a property of [String.prototype], [Number.prototype] or
    [Object.prototype] can lead the walk into a built-in;
    [off_tree path] says that no such segment occurs. *)
Fixpoint off_tree (path : list string) : bool :=
  match path with
  | [] => true
  | key :: rest =>
      match rest with
      | [] => true
      | _ => negb (builtin_property key) && off_tree rest
      end
  end.

(** The walk once [current] has become [Object.prototype], which every
    [__proto__] chain ends in.  [Object.prototype.__proto__] is [null], so
    [!current[key]] holds for the segment [__proto__]; when that segment
    is not the last one the source assigns
    [Object.prototype.__proto__ = {}] (line 35).  The setter asks
    [Object.prototype] to change its prototype, which it refuses for any
    object other than the present [null], and the setter throws
    [TypeError].  (At the last segment the assigned value is the type
    string, which the setter ignores.)  Any other segment reads or writes
    a property of [Object.prototype] and is not described. *)
Definition object_prototype_walk (path : list string) : outcome object :=
  match path with
  | key :: _ :: _ =>
      if String.eqb key "__proto__" then Raise TypeError else Escapes
  | _ => Escapes
  end.

(** The walk from a terminal type string through segments that do name
    built-in properties.  ["int".__proto__] is [String.prototype] and
    [String.prototype.__proto__] is [Object.prototype]: both are objects,
    hence truthy, and before the last segment neither branch of lines
    34-42 assigns, so two such segments move [current] to
    [Object.prototype]. *)
Definition primitive_walk (path : list string) : outcome object :=
  match path with
  | first :: second :: rest =>
      if String.eqb first "__proto__" && String.eqb second "__proto__"
      then object_prototype_walk rest
      else Escapes
  | _ => Escapes
  end.

(** The body of [path.forEach((key, index) => ...)] (source lines 32-45),
    run on the object [current] for the segments that remain; it returns
    [current] as the walk leaves it.  [rest = []] is
    [index === path.length - 1].  The source mutates the objects in
    place while [current] moves down one chain of references; here each
    object on that chain is handed back with its child replaced by the
    child as the rest of the walk left it. *)
Fixpoint walk (type : string) (path : list string) (current : object)
  {struct path} : outcome object :=
  match path with
  | [] => Done current
  | key :: rest =>
      let last := match rest with [] => true | _ => false end in
      let create :=
        (* !current[key]:  current[key] = last ? type : {} *)
        if last then Done (set key (Str type) current)
        else child <- walk type rest [] ;; Done (set key (Obj child) current) in
      match get current key with
      | Missing => create
      | Own v =>
          if negb (truthy v) then create
          else match v with
               | Obj child =>
                   (* typeof current[key] === "object": overwritten at the
                      last segment, entered otherwise *)
                   if last then Done (set key (Str type) current)
                   else child' <- walk type rest child ;;
                        Done (set key (Obj child') current)
               | Str _ =>
                   (* a type string: neither branch assigns, and [current]
                      becomes the primitive *)
                   if off_tree rest then Done current
                   else primitive_walk rest
               end
      | Inherited =>
          (* a built-in: truthy, and either a function or, for __proto__,
             [Object.prototype], whose setter ignores the string; nothing
             is assigned, and [current] becomes the built-in *)
          if last then Done current
          else if String.eqb key "__proto__" then object_prototype_walk rest
          else Escapes
      end
  end.

(** [field.type || "any"] *)
Definition effective_type (f : field) : string :=
  if String.eqb (type f) EmptyString then "any" else type f.

(** One pass of [validatedFields.forEach] (source lines 26-46). *)
Definition insert_field (f : field) (defs : object) : outcome object :=
  walk (effective_type f) (split (name f)) defs.

Fixpoint build (fs : list field) (defs : object) : outcome object :=
  match fs with
  | [] => Done defs
  | f :: rest => defs' <- insert_field f defs ;; build rest defs'
  end.

(** [const defs = {}; validatedFields.forEach(...); return defs]
    (source lines 24-48). *)
Definition flatten (validatedFields : list field) : outcome object :=
  build validatedFields [].

(** [convertSchemaToJSON(fields)] (source lines 20-49). *)
Definition convertSchemaToJSON (fields : json) : outcome object :=
  validatedFields <- fieldsSchema_parse fields ;;
  flatten validatedFields.

(** [getStringifiedSchema] (source lines 57-72); a string value is
    rendered as itself. *)
Fixpoint stringify (v : value) (indent : Z) {struct v} : outcome string :=
  match v with
  | Str s => Done s
  | Obj defs =>
      spaces <- repeat_space indent ;;
      lines <- (fix entries (l : object) : outcome (list string) :=
                  match l with
                  | [] => Done []
                  | (key, value) :: tl =>
                      text <- stringify value (indent + 2) ;;
                      more <- entries tl ;;
                      Done ((spaces +++ key +++ ": " +++ text +++ ";") :: more)
                  end) defs ;;
      closing <- repeat_space (indent - 2) ;;
      Done ("{" +++ newline +++ join newline lines +++ newline
                +++ closing +++ "}")
  end.

(** The loop [entries.map(([key, value]) => ...)] of the renderer, by name. *)
Fixpoint entries (pad : string) (indent : Z) (l : object) : outcome (list string) :=
  match l with
  | [] => Done []
  | (key, value) :: tl =>
      text <- stringify value (indent + 2) ;;
      more <- entries pad indent tl ;;
      Done ((pad +++ key +++ ": " +++ text +++ ";") :: more)
  end.

Definition getStringifiedSchema (defs : object) (indent : Z) : outcome string :=
  stringify (Obj defs) indent.

(** The value an own-property path leads to. *)
Fixpoint get_path (path : list string) (defs : object) : option value :=
  match path with
  | [] => None
  | key :: rest =>
      match rest with
      | [] => lookup key defs
      | _ => match lookup key defs with
             | Some (Obj child) => get_path rest child
             | _ => None
             end
      end
  end.

End Schema.

Import Schema.

(** ** Conditions on paths and trees used in the statements *)

Module Paths.

(** A segment that an object literal does not inherit. *)
Definition plain (key : string) : bool := negb (inherited key).

(** No earlier descriptor stands in the way of [path]: every segment
    met on the way is still unset or leads to a nested object. *)
Fixpoint unclaimed (path : list string) (defs : object) : bool :=
  match path with
  | [] => false
  | key :: rest =>
      match get defs key with
      | Missing => forallb plain rest
      | Own (Obj child) =>
          match rest with
          | [] => true
          | _ => unclaimed rest child
          end
      | Own (Str _) => false
      | Inherited => false
      end
  end.

(** The walk along [path] is already settled in [defs]: it meets a
    terminal type string, or ends on an inherited name. *)
Fixpoint absorbed (path : list string) (defs : object) : Prop :=
  match path with
  | [] => False
  | key :: rest =>
      match get defs key with
      | Missing => False
      | Own v =>
          truthy v = true /\
          match v with
          | Str _ => True
          | Obj child => absorbed rest child
          end
      | Inherited => rest = []
      end
  end.

(** The first segment of a descriptor's name. *)
Definition top (f : field) : string := hd EmptyString (split (name f)).

End Paths.

Import Paths.


(** ** Shapes of raw descriptors, stated independently of the parser *)

Module Shape.

Definition is_string (v : json) : bool :=
  match v with JStr _ => true | _ => false end.

Definition is_boolean (v : json) : bool :=
  match v with JBool _ => true | _ => false end.

Definition is_object (v : json) : bool :=
  match v with JObj _ => true | _ => false end.

(** The ways an element of the input array can fail shape validation. *)
Inductive wrong_shape : json -> Prop :=
| not_an_object j :
    is_object j = false -> wrong_shape j
| name_missing m :
    member "name" m = None -> wrong_shape (JObj m)
| name_not_string m v :
    member "name" m = Some v -> is_string v = false -> wrong_shape (JObj m)
| type_not_string m v :
    member "type" m = Some v -> is_string v = false -> wrong_shape (JObj m)
| unit_not_string m v :
    member "unit" m = Some v -> is_string v = false -> wrong_shape (JObj m)
| hidden_not_boolean m v :
    member "hidden" m = Some v -> is_boolean v = false -> wrong_shape (JObj m)
| description_not_string m v :
    member "description" m = Some v -> is_string v = false ->
    wrong_shape (JObj m).

(** An optional key is absent or holds a value of the right primitive type. *)
Definition absent_or (test : json -> bool) (v : option json) : bool :=
  match v with None => true | Some x => test x end.

Definition optional_ok (m : list (string * json)) : bool :=
  absent_or is_string (member "type" m)
  && absent_or is_string (member "unit" m)
  && absent_or is_boolean (member "hidden" m)
  && absent_or is_string (member "description" m).

End Shape.

Import Shape.

(** ** Key order and text layout, as the specification words them *)

Module Layout.

(** Each key once, at its first occurrence; [seen] holds the keys met so far. *)
Fixpoint first_occurrences (seen l : list string) : list string :=
  match l with
  | [] => []
  | k :: rest =>
      if mem k seen then first_occurrences seen rest
      else k :: first_occurrences (k :: seen) rest
  end.

Definition creation_order (l : list string) : list string :=
  first_occurrences [] l.

(** The first segments that create a top-level key. *)
Definition created_tops (fs : list field) : list string :=
  filter plain (map top fs).

(** What is left of [path] after [prefix], when [path] starts with it. *)
Fixpoint strip (prefix path : list string) : option (list string) :=
  match prefix with
  | [] => Some path
  | p :: prefix' =>
      match path with
      | [] => None
      | q :: path' => if String.eqb p q then strip prefix' path' else None
      end
  end.

(** The segment that follows [prefix] in [path], if [path] goes on. *)
Definition following (prefix path : list string) : list string :=
  match strip prefix path with
  | Some (key :: _) => [key]
  | _ => []
  end.

(** The segments that follow [prefix] in the names that extend it, in
    input order. *)
Definition next_segments (prefix : list string) (fs : list field)
  : list string :=
  flat_map (fun f => following prefix (split (name f))) fs.

(** Those of them that create a key in the object at [prefix]; for the
    empty prefix these are the [created_tops]. *)
Definition created_at (prefix : list string) (fs : list field)
  : list string :=
  filter plain (next_segments prefix fs).

(** The object a path leads to: the tree itself for the empty path, a
    nested object otherwise. *)
Definition object_at (prefix : list string) (defs : object) : option object :=
  match prefix with
  | [] => Some defs
  | _ => match get_path prefix defs with
         | Some (Obj child) => Some child
         | _ => None
         end
  end.

Definition not_index (key : string) : bool := negb (is_index key).

Definition index_value (key : string) : N :=
  match array_index key with Some n => n | None => 0%N end.

(** Array-index keys in ascending numeric order. *)
Inductive ascending : list string -> Prop :=
| ascending_nil : ascending []
| ascending_cons k ks :
    Forall (fun k' => (index_value k <= index_value k')%N) ks ->
    ascending ks -> ascending (k :: ks).

(** A terminal key renders as [<indent><key>: <type>;], a nested key as
    [<indent><key>: <sub-block>;]. *)
Definition entry_line (indent : nat) (key text : string) : string :=
  spaces indent +++ key +++ ": " +++ text +++ ";".

(** [{] on the first line, one line per entry, and the closing [}]
    indented two spaces less than the entries. *)
Definition brace_block (indent : nat) (lines : list string) : string :=
  "{" +++ newline +++ join newline lines +++ newline
      +++ spaces (indent - 2) +++ "}".

(** The text of a value: a type string as it is, a nested mapping as a
    block whose entries are indented two spaces deeper. *)
Fixpoint rendered (v : value) (indent : nat) {struct v} : string :=
  match v with
  | Str s => s
  | Obj defs =>
      brace_block indent
        (map (fun kv : string * value =>
                let (key, value) := kv in
                entry_line indent key (rendered value (indent + 2)))
             defs)
  end.

(** The line of one entry of a block. *)
Definition entry (indent : nat) (kv : string * value) : string :=
  entry_line indent (fst kv) (rendered (snd kv) (indent + 2)).

End Layout.

Import Layout.

(** ** Key order as the object model produces it *)

Module KeyOrder.

(** [place_index] on the keys alone. *)
Fixpoint place_key (n : N) (key : string) (ks : list string) : list string :=
  match ks with
  | [] => [key]
  | k :: rest =>
      match array_index k with
      | Some m => if (m <? n)%N then k :: place_key n key rest else key :: ks
      | None => key :: ks
      end
  end.

(** The keys of an object after [key] has been assigned. *)
Definition add_key (key : string) (ks : list string) : list string :=
  if mem key ks then ks
  else match array_index key with
       | Some n => place_key n key ks
       | None => ks ++ [key]
       end.

Definition enumerate_from (acc l : list string) : list string :=
  fold_left (fun ks k => add_key k ks) l acc.

(** The shape of an enumeration: array indices in ascending order, then
    the other keys. *)
Definition partitioned (ks idx others : list string) : Prop :=
  ks = idx ++ others /\
  Forall (fun k => is_index k = true) idx /\
  Forall (fun k => is_index k = false) others /\
  ascending idx.

End KeyOrder.

Import KeyOrder.

(** ** The loop seen from inside a nested object *)

Module Steps.

(** The loop of [convertSchemaToJSON] with each descriptor reduced to what
    the walk uses of it: the type and the path. *)
Definition steps (fs : list field) : list (string * list string) :=
  map (fun f => (effective_type f, split (name f))) fs.

Fixpoint run (l : list (string * list string)) (current : object)
  : outcome object :=
  match l with
  | [] => Done current
  | (type, path) :: rest =>
      current' <- walk type path current ;; run rest current'
  end.

(** The walks that pass through [key], each cut to what it does below. *)
Definition below (key : string) (l : list (string * list string))
  : list (string * list string) :=
  flat_map (fun tp : string * list string =>
              match snd tp with
              | k :: rest => if String.eqb key k then [(fst tp, rest)] else []
              | [] => []
              end) l.

Fixpoint descend (prefix : list string) (l : list (string * list string))
  : list (string * list string) :=
  match prefix with
  | [] => l
  | key :: prefix' => descend prefix' (below key l)
  end.

Definition firsts (l : list (string * list string)) : list string :=
  flat_map (fun tp : string * list string =>
              match snd tp with
              | k :: _ => [k]
              | [] => []
              end) l.

(** Nothing truthy is stored under [key]: the next walk through [key]
    creates its value anew. *)
Definition vacant (current : object) (key : string) : bool :=
  match get current key with
  | Missing => true
  | Own v => negb (truthy v)
  | Inherited => false
  end.

End Steps.

Import Steps.

(** ** Shape of the trees the flattener builds *)

Module Tree.

(** A tree as an ordinary object can hold it: at every level the keys
    are pairwise distinct, none shadows a property inherited from
    [Object.prototype], array indices come first in ascending order, and
    every terminal is a non-empty string. *)
Inductive well_formed : value -> Prop :=
| wf_terminal s : s <> EmptyString -> well_formed (Str s)
| wf_nested defs :
    NoDup (keys defs) ->
    Forall (fun k => inherited k = false) (keys defs) ->
    (exists idx others, partitioned (keys defs) idx others) ->
    Forall (fun kv => well_formed (snd kv)) defs ->
    well_formed (Obj defs).

(** Levels of nesting: a terminal has none, an object one more than its
    deepest value. *)
Fixpoint depth (v : value) : nat :=
  match v with
  | Str _ => 0
  | Obj defs =>
      S ((fix deepest (l : object) : nat :=
            match l with
            | [] => 0
            | (_, v') :: tl => Nat.max (depth v') (deepest tl)
            end) defs)
  end.

(** The deepest value of an object. *)
Fixpoint deepest (l : object) : nat :=
  match l with
  | [] => 0
  | (_, v) :: tl => Nat.max (depth v) (deepest tl)
  end.

(** The largest number of segments among the names. *)
Fixpoint longest (fs : list field) : nat :=
  match fs with
  | [] => 0
  | f :: rest => Nat.max (length (split (name f))) (longest rest)
  end.

End Tree.

Import Tree.

(** ** The caller: the tool [getDatasetInfoAndSchema] of [src/index.js] *)

Module Server.

(** The validators [datasetInfoSchema] uses (source lines 175-190). *)
Inductive validator : Type :=
| z_number     (* z.number() *)
| z_string     (* z.string() *)
| z_null       (* z.null() *)
| z_fields.    (* fieldsSchema *)

Definition datasetInfoSchema : list (string * validator) :=
  [ ("compressedBytes", z_number); ("compressedBytesHuman", z_string);
    ("created", z_string); ("fields", z_fields); ("inputBytes", z_number);
    ("inputBytesHuman", z_string); ("maxTime", z_string);
    ("minTime", z_string); ("name", z_string); ("numBlocks", z_number);
    ("numEvents", z_number); ("numFields", z_number);
    ("quickQueries", z_null); ("who", z_string) ].

(** The object zod hands back for a validated descriptor: the five keys
    of [fieldSchema], defaults filled in. *)
Definition validated_object (f : field) : json :=
  JObj [ ("name", JStr (name f)); ("type", JStr (type f));
         ("unit", JStr (unit f)); ("hidden", JBool (hidden f));
         ("description", JStr (description f)) ].

(** One key of the shape checked against [data[key]]; none of the
    validators is optional, so [undefined] fails. *)
Definition check (v : validator) (value : option json) : option json :=
  match v, value with
  | z_number, Some (JNum n) => Some (JNum n)
  | z_string, Some (JStr s) => Some (JStr s)
  | z_null, Some JNull => Some JNull
  | z_fields, Some input =>
      match fieldsSchema_parse input with
      | Done fs => Some (JArr (map validated_object fs))
      | _ => None
      end
  | _, _ => None
  end.

(** [z.object(shape)]: every key of the shape is read from the input and
    checked; the result holds the keys of the shape and nothing else. *)
Fixpoint parse_shape (shape : list (string * validator))
  (input : list (string * json)) : option (list (string * json)) :=
  match shape with
  | [] => Some []
  | (key, v) :: rest =>
      match check v (member key input), parse_shape rest input with
      | Some value, Some more => Some ((key, value) :: more)
      | _, _ => None
      end
  end.

(** [datasetInfoSchema.parse(rawData)] (source line 219). *)
Definition datasetInfoSchema_parse (rawData : json)
  : outcome (list (string * json)) :=
  match rawData with
  | JObj input =>
      match parse_shape datasetInfoSchema input with
      | Some data => Done data
      | None => Raise ZodError
      end
  | _ => Raise ZodError
  end.

(** [{ ...data, [key]: v }]: an existing key keeps its place. *)
Fixpoint override (key : string) (v : json) (data : list (string * json))
  : list (string * json) :=
  match data with
  | [] => [(key, v)]
  | (k, w) :: rest =>
      if String.eqb k key then (k, v) :: rest else (k, w) :: override key v rest
  end.

(** The handler of [getDatasetInfoAndSchema] from the fetched response
    on (source lines 219-230): the object handed to [JSON.stringify].
    [getStringifiedSchema] is called with its default indent. *)
Definition getDatasetInfoAndSchema (rawData : json) : outcome json :=
  data <- datasetInfoSchema_parse rawData ;;
  match member "fields" data with
  | Some fields =>
      defs <- convertSchemaToJSON fields ;;
      typeDefsString <- getStringifiedSchema defs 2 ;;
      Done (JObj (override "fields" (JStr typeDefsString) data))
  | None => Raise ZodError   (* fieldsSchema.parse(undefined) *)
  end.

End Server.

Import Server.

(** ** A sample response *)

Module Response.

(** A dataset-info response with two fields and a member that
    [datasetInfoSchema] does not know. *)
Definition sample (quickQueries : json) : list (string * json) :=
  [ ("name", JStr "logs"); ("who", JStr "me"); ("created", JStr "2024");
    ("compressedBytes", JNum "10"); ("compressedBytesHuman", JStr "10 B");
    ("inputBytes", JNum "20"); ("inputBytesHuman", JStr "20 B");
    ("maxTime", JStr "t1"); ("minTime", JStr "t0");
    ("numBlocks", JNum "1"); ("numEvents", JNum "2"); ("numFields", JNum "2");
    ("quickQueries", quickQueries); ("retention", JNum "30");
    ("fields",
     JArr [JObj [("name", JStr "request.method"); ("type", JStr "string")];
           JObj [("name", JStr "status"); ("hidden", JBool true)]]) ].

End Response.

(** ** Sample inputs *)

Module Samples.

(** [{name: n, type: t}] *)
Definition descriptor (n t : string) : json :=
  JObj [("name", JStr n); ("type", JStr t)].

(** The validated form of [descriptor n t]. *)
Definition validated (n t : string) : field := Field n t "" false "".

End Samples.

Import Samples.

(** * Properties *)

(** ** Ordinary objects *)

Section ObjectFacts.

Lemma lookup_update_same key v o :
  lookup key o <> None -> lookup key (update key v o) = Some v.
Proof.
  induction o as [| [k w] rest IH]; simpl; intros H.
  - congruence.
  - destruct (String.eqb k key) eqn:E; simpl; rewrite E; auto.
Qed.

Lemma lookup_update_other key key' v o :
  key <> key' -> lookup key (update key' v o) = lookup key o.
Proof.
  intros Hne.
  induction o as [| [k w] rest IH]; simpl; auto.
  destruct (String.eqb k key') eqn:E; simpl.
  - apply String.eqb_eq in E; subst k.
    apply not_eq_sym, String.eqb_neq in Hne. now rewrite Hne.
  - now rewrite IH.
Qed.

Lemma update_same key v o :
  lookup key o = Some v -> update key v o = o.
Proof.
  induction o as [| [k w] rest IH]; simpl; auto.
  destruct (String.eqb k key) eqn:E; intros H.
  - congruence.
  - rewrite IH; auto.
Qed.

Lemma keys_update key v o : keys (update key v o) = keys o.
Proof.
  induction o as [| [k w] rest IH]; simpl; auto.
  destruct (String.eqb k key); simpl; [reflexivity | now rewrite <- IH].
Qed.

Lemma lookup_app key o o' :
  lookup key (o ++ o') =
  match lookup key o with Some v => Some v | None => lookup key o' end.
Proof.
  induction o as [| [k w] rest IH]; simpl; auto.
  destruct (String.eqb k key); auto.
Qed.

Lemma lookup_place_index_same n key v o :
  lookup key o = None -> lookup key (place_index n key v o) = Some v.
Proof.
  induction o as [| [k w] rest IH]; simpl; intros H.
  - now rewrite String.eqb_refl.
  - destruct (String.eqb k key) eqn:E; [discriminate |].
    destruct (array_index k) as [m |]; [destruct (m <? n)%N |];
      simpl; rewrite ?E, ?String.eqb_refl; auto.
Qed.

Lemma lookup_place_index_other n key key' v o :
  key <> key' -> lookup key (place_index n key' v o) = lookup key o.
Proof.
  intros Hne. apply not_eq_sym, String.eqb_neq in Hne.
  induction o as [| [k w] rest IH]; simpl.
  - now rewrite Hne.
  - destruct (array_index k) as [m |]; [destruct (m <? n)%N |];
      simpl; rewrite ?Hne, ?IH; auto.
Qed.

Lemma lookup_define_own_same key v o :
  lookup key o = None -> lookup key (define_own key v o) = Some v.
Proof.
  intros H. unfold define_own.
  destruct (array_index key).
  - now apply lookup_place_index_same.
  - rewrite lookup_app, H. simpl. now rewrite String.eqb_refl.
Qed.

Lemma lookup_define_own_other key key' v o :
  key <> key' -> lookup key (define_own key' v o) = lookup key o.
Proof.
  intros Hne. unfold define_own.
  destruct (array_index key').
  - now apply lookup_place_index_other.
  - rewrite lookup_app. simpl.
    apply not_eq_sym, String.eqb_neq in Hne. rewrite Hne.
    now destruct (lookup key o).
Qed.

Lemma lookup_set_same key v o : lookup key (set key v o) = Some v.
Proof.
  unfold set. destruct (lookup key o) eqn:E.
  - apply lookup_update_same. congruence.
  - now apply lookup_define_own_same.
Qed.

Lemma lookup_set_other key key' v o :
  key <> key' -> lookup key (set key' v o) = lookup key o.
Proof.
  intros Hne. unfold set. destruct (lookup key' o).
  - now apply lookup_update_other.
  - now apply lookup_define_own_other.
Qed.

Lemma set_same key v o : lookup key o = Some v -> set key v o = o.
Proof.
  intros H. unfold set. rewrite H. now apply update_same.
Qed.

Lemma get_own current key v :
  lookup key current = Some v -> get current key = Own v.
Proof. intros H. unfold get. now rewrite H. Qed.

End ObjectFacts.

(** ** Validation *)

Section Validation.

(** The parser rejects the wrong shapes, and nothing else. *)
Lemma fieldSchema_rejects j : wrong_shape j -> fieldSchema j = None.
Proof.
  intros H; inversion H as [j' Hobj | m Hn | m v Hn Hs | m v Ht Hs
                            | m v Hu Hs | m v Hh Hb | m v Hd Hs]; subst.
  - destruct j; simpl in *; auto; discriminate.
  - simpl. now rewrite Hn.
  - simpl. rewrite Hn. destruct v; simpl in *; auto; discriminate.
  - simpl. destruct (string_ (member "name" m)); auto.
    rewrite Ht. destruct v; simpl in *; auto; discriminate.
  - simpl. destruct (string_ (member "name" m)); auto.
    destruct (string_default "any" (member "type" m)); auto.
    rewrite Hu. destruct v; simpl in *; auto; discriminate.
  - simpl. destruct (string_ (member "name" m)); auto.
    destruct (string_default "any" (member "type" m)); auto.
    destruct (string_default "" (member "unit" m)); auto.
    rewrite Hh. destruct v; simpl in *; auto; discriminate.
  - simpl. destruct (string_ (member "name" m)); auto.
    destruct (string_default "any" (member "type" m)); auto.
    destruct (string_default "" (member "unit" m)); auto.
    destruct (boolean_default false (member "hidden" m)); auto.
    rewrite Hd. destruct v; simpl in *; auto; discriminate.
Qed.

Lemma rejected_has_wrong_shape j : fieldSchema j = None -> wrong_shape j.
Proof.
  destruct j as [| b | l | s | items | m];
    try (intros _; apply not_an_object; reflexivity).
  simpl.
  destruct (member "name" m) as [vn |] eqn:En;
    [| intros _; now apply name_missing].
  destruct vn as [| | | n | |];
    try (intros _; eapply name_not_string; [exact En | reflexivity]).
  simpl.
  destruct (member "type" m) as [[] |] eqn:Et; simpl;
    try (intros _; eapply type_not_string; [exact Et | reflexivity]);
  (destruct (member "unit" m) as [[] |] eqn:Eu; simpl;
    try (intros _; eapply unit_not_string; [exact Eu | reflexivity]);
  (destruct (member "hidden" m) as [[] |] eqn:Eh; simpl;
    try (intros _; eapply hidden_not_boolean; [exact Eh | reflexivity]);
  (destruct (member "description" m) as [[] |] eqn:Ed; simpl;
    try (intros _; eapply description_not_string; [exact Ed | reflexivity]);
    discriminate))).
Qed.

Lemma each_rejects items bad :
  In bad items -> fieldSchema bad = None -> each items = None.
Proof.
  induction items as [| item rest IH]; simpl; intros Hin Hbad.
  - contradiction.
  - destruct Hin as [-> | Hin].
    + now rewrite Hbad.
    + rewrite (IH Hin Hbad). now destruct (fieldSchema item).
Qed.

Lemma each_app before after fs1 fs2 :
  each before = Some fs1 -> each after = Some fs2 ->
  each (before ++ after) = Some (fs1 ++ fs2).
Proof.
  revert fs1. induction before as [| item rest IH]; simpl; intros fs1 H1 H2.
  - injection H1 as <-. exact H2.
  - destruct (fieldSchema item) as [f |]; [| discriminate].
    destruct (each rest) as [fs |]; [| discriminate].
    injection H1 as <-. now rewrite (IH fs eq_refl H2).
Qed.

End Validation.

(** ** The path walk *)

(** A walk that has reached a built-in prototype returns no tree. *)
Lemma object_prototype_walk_Done path (defs : object) :
  object_prototype_walk path <> Done defs.
Proof.
  destruct path as [| key [| next rest]]; simpl; try discriminate.
  destruct (String.eqb key "__proto__"); discriminate.
Qed.

Lemma primitive_walk_Done path (defs : object) :
  primitive_walk path <> Done defs.
Proof.
  destruct path as [| first [| second rest]]; simpl; try discriminate.
  destruct (String.eqb first "__proto__" && String.eqb second "__proto__");
    [apply object_prototype_walk_Done | discriminate].
Qed.



(** Closes a goal one of whose hypotheses says that such a walk returned. *)
Ltac stuck :=
  match goal with
  | H : primitive_walk _ = Done _ |- _ =>
      now apply primitive_walk_Done in H
  | H : object_prototype_walk _ = Done _ |- _ =>
      now apply object_prototype_walk_Done in H
  | H : (if String.eqb ?k "__proto__" then _ else Escapes) = Done _ |- _ =>
      destruct (String.eqb k "__proto__");
      [now apply object_prototype_walk_Done in H | discriminate H]
  end.

Section Walk.

Lemma split_not_nil s : split s <> [].
Proof.
  destruct s as [| c rest]; simpl; [discriminate |].
  destruct (Ascii.eqb c dot); [discriminate |].
  destruct (split rest); discriminate.
Qed.

Lemma effective_type_not_empty f : effective_type f <> EmptyString.
Proof.
  unfold effective_type.
  destruct (String.eqb (type f) EmptyString) eqn:E; [discriminate |].
  now apply String.eqb_neq.
Qed.

Lemma truthy_Str s : s <> EmptyString -> truthy (Str s) = true.
Proof.
  intros H. simpl. apply String.eqb_neq in H. now rewrite H.
Qed.

(** The step at the last segment. *)
Lemma walk_last type key current :
  walk type [key] current =
  match get current key with
  | Missing => Done (set key (Str type) current)
  | Own v =>
      if truthy v
      then match v with
           | Obj _ => Done (set key (Str type) current)
           | Str _ => Done current
           end
      else Done (set key (Str type) current)
  | Inherited => Done current
  end.
Proof.
  simpl. destruct (get current key) as [| v |]; auto.
  destruct (truthy v); simpl; auto.
Qed.

(** The step at a segment that is not the last one. *)
Lemma walk_more type key next rest current :
  walk type (key :: next :: rest) current =
  match get current key with
  | Missing =>
      child <- walk type (next :: rest) [] ;;
      Done (set key (Obj child) current)
  | Own v =>
      if truthy v
      then match v with
           | Obj child =>
               child' <- walk type (next :: rest) child ;;
               Done (set key (Obj child') current)
           | Str _ =>
               if off_tree (next :: rest) then Done current
               else primitive_walk (next :: rest)
           end
      else child <- walk type (next :: rest) [] ;;
           Done (set key (Obj child) current)
  | Inherited =>
      if String.eqb key "__proto__"
      then object_prototype_walk (next :: rest)
      else Escapes
  end.
Proof.
  cbn [walk]. destruct (get current key) as [| v |]; auto.
  destruct (truthy v); simpl; auto.
Qed.

Lemma build_app fs1 fs2 defs :
  build (fs1 ++ fs2) defs = (defs' <- build fs1 defs ;; build fs2 defs').
Proof.
  revert defs. induction fs1 as [| f rest IH]; intros defs; simpl; auto.
  destruct (insert_field f defs); simpl; auto.
Qed.

(** A path that holds a nested object is collapsed to the type. *)
Lemma walk_collapses type path :
  forall current child,
    get_path path current = Some (Obj child) ->
    exists current',
      walk type path current = Done current' /\
      get_path path current' = Some (Str type).
Proof.
  induction path as [| key rest IH]; intros current child H.
  - discriminate.
  - destruct rest as [| next rest].
    + simpl in H. rewrite walk_last, (get_own _ _ _ H). simpl.
      eexists; split; [reflexivity |]. simpl. apply lookup_set_same.
    + cbn [get_path] in H.
      destruct (lookup key current) as [[s | inner] |] eqn:E; try discriminate.
      rewrite walk_more, (get_own _ _ _ E). simpl truthy. cbv iota.
      destruct (IH inner child H) as (inner' & Hw & Hg).
      rewrite Hw. cbn [bind]. eexists; split; [reflexivity |].
      cbn [get_path]. now rewrite lookup_set_same.
Qed.


End Walk.

(** ** Settled and unclaimed paths *)

Section Settled.

Lemma convertSchemaToJSON_validated fields fs :
  fieldsSchema_parse fields = Done fs ->
  convertSchemaToJSON fields = flatten fs.
Proof. intros H. unfold convertSchemaToJSON. now rewrite H. Qed.

Lemma get_inherited current key :
  get current key = Inherited -> inherited key = true.
Proof.
  unfold get. destruct (lookup key current); [discriminate |].
  now destruct (inherited key).
Qed.

Lemma get_set_same key v o : get (set key v o) key = Own v.
Proof. apply get_own, lookup_set_same. Qed.

Lemma get_set_other key key' v o :
  key <> key' -> get (set key' v o) key = get o key.
Proof. intros H. unfold get. now rewrite lookup_set_other. Qed.

Lemma builtin_inherited key :
  builtin_property key = false -> inherited key = false.
Proof.
  unfold builtin_property. intros H.
  apply orb_false_elim in H as [H _]. now apply orb_false_elim in H as [H _].
Qed.

(** The walk returns whenever no segment before the last names a
    built-in property. *)
Lemma walk_returns type path :
  forall current,
    off_tree path = true -> exists current', walk type path current = Done current'.
Proof.
  induction path as [| key rest IH]; intros current Hsafe.
  - now exists current.
  - destruct rest as [| next rest].
    + rewrite walk_last.
      destruct (get current key) as [| v |]; eauto.
      destruct (truthy v); eauto. destruct v; eauto.
    + assert (Hk : builtin_property key = false /\ off_tree (next :: rest) = true).
      { cbn [off_tree] in Hsafe. apply andb_prop in Hsafe as [H1 H2].
        split; [now apply negb_true_iff in H1 | exact H2]. }
      destruct Hk as [Hk Hrest].
      rewrite walk_more.
      destruct (get current key) as [| v |] eqn:G.
      * destruct (IH [] Hrest) as [c ->]. simpl. eauto.
      * destruct (truthy v).
        -- destruct v as [s | child].
           ++ rewrite Hrest. eauto.
           ++ destruct (IH child Hrest) as [c ->]. simpl. eauto.
        -- destruct (IH [] Hrest) as [c ->]. simpl. eauto.
      * apply get_inherited in G. apply builtin_inherited in Hk. congruence.
Qed.

(** So does the whole loop. *)
Lemma build_returns fs :
  forall defs,
    forallb (fun f => off_tree (split (name f))) fs = true ->
    exists defs', build fs defs = Done defs'.
Proof.
  induction fs as [| f rest IH]; intros defs Hsafe.
  - now exists defs.
  - simpl in Hsafe. apply andb_prop in Hsafe as [Hf Hrest].
    simpl. unfold insert_field.
    destruct (walk_returns (effective_type f) _ defs Hf) as [defs1 ->].
    simpl. now apply IH.
Qed.

(** After the top segment [key] has been walked, the other top-level
    properties are as before. *)
Lemma walk_other_key type key rest current current' other :
  walk type (key :: rest) current = Done current' ->
  other <> key -> get current' other = get current other.
Proof.
  intros H Hne.
  assert (Hset : forall v, get (set key v current) other = get current other)
    by (intros v; now apply get_set_other).
  destruct rest as [| next rest].
  - rewrite walk_last in H.
    destruct (get current key) as [| v |];
      [| destruct (truthy v); [destruct v |] |];
      injection H as <-; auto.
  - rewrite walk_more in H.
    destruct (get current key) as [| v |];
      [| destruct (truthy v); [destruct v as [s | child] |] |];
      try stuck.
    + destruct (walk type (next :: rest) []); try discriminate.
      injection H as <-; auto.
    + destruct (off_tree (next :: rest)); try discriminate; try stuck.
      injection H as <-; auto.
    + destruct (walk type (next :: rest) child); try discriminate.
      injection H as <-; auto.
    + destruct (walk type (next :: rest) []); try discriminate.
      injection H as <-; auto.
Qed.

(** Once a walk has returned, the same path is settled. *)
Lemma walk_settles type path :
  type <> EmptyString ->
  forall current current',
    path <> [] ->
    walk type path current = Done current' -> absorbed path current'.
Proof.
  intros Hty. induction path as [| key rest IH]; intros current current' Hne H.
  - congruence.
  - assert (Hstr : absorbed (key :: rest) (set key (Str type) current)).
    { cbn [absorbed]. rewrite get_set_same. split; [now apply truthy_Str | exact I]. }
    destruct rest as [| next rest].
    + rewrite walk_last in H.
      destruct (get current key) as [| v |] eqn:G.
      * injection H as <-. exact Hstr.
      * destruct (truthy v) eqn:T.
        -- destruct v as [s | child]; injection H as <-; [| exact Hstr].
           cbn [absorbed]. rewrite G. now split.
        -- injection H as <-. exact Hstr.
      * injection H as <-. cbn [absorbed]. now rewrite G.
    + assert (Hobj : forall inner c,
                 walk type (next :: rest) inner = Done c ->
                 absorbed (key :: next :: rest) (set key (Obj c) current)).
      { intros inner c Hw. cbn [absorbed]. rewrite get_set_same.
        split; [reflexivity |]. apply (IH inner c); [discriminate | exact Hw]. }
      rewrite walk_more in H.
      destruct (get current key) as [| v |] eqn:G.
      * destruct (walk type (next :: rest) []) eqn:W; try discriminate.
        injection H as <-. eapply Hobj; eauto.
      * destruct (truthy v) eqn:T.
        -- destruct v as [s | child].
           ++ destruct (off_tree (next :: rest)); try discriminate; try stuck.
              injection H as <-. cbn [absorbed]. rewrite G. now split.
           ++ destruct (walk type (next :: rest) child) eqn:W; try discriminate.
              injection H as <-. eapply Hobj; eauto.
        -- destruct (walk type (next :: rest) []) eqn:W; try discriminate.
           injection H as <-. eapply Hobj; eauto.
      * stuck.
Qed.

(** On a settled path the walk changes nothing. *)
Lemma walk_settled_noop type path :
  forall current,
    absorbed path current -> off_tree path = true ->
    walk type path current = Done current.
Proof.
  induction path as [| key rest IH]; intros current Habs Hsafe.
  - contradiction.
  - cbn [absorbed] in Habs.
    destruct rest as [| next rest].
    + rewrite walk_last.
      destruct (get current key) as [| v |]; [contradiction | | reflexivity].
      destruct Habs as [-> Hv]. destruct v; [reflexivity | contradiction].
    + assert (Hrest : off_tree (next :: rest) = true).
      { cbn [off_tree] in Hsafe. now apply andb_prop in Hsafe as [_ H2]. }
      rewrite walk_more.
      destruct (get current key) as [| v |] eqn:G;
        [contradiction | | discriminate].
      destruct Habs as [-> Hv]. destruct v as [s | child].
      * now rewrite Hrest.
      * rewrite (IH child Hv Hrest). simpl. f_equal. apply set_same.
        unfold get in G. destruct (lookup key current); [congruence |].
        destruct (inherited key); discriminate.
Qed.

(** No later insertion unsettles a path. *)
Lemma absorbed_kept type :
  type <> EmptyString ->
  forall path path' current current',
    absorbed path current ->
    walk type path' current = Done current' ->
    absorbed path current'.
Proof.
  intros Hty. induction path as [| key rest IH];
    intros path' current current' Habs H; [contradiction |].
  destruct path' as [| key' rest']; [simpl in H; congruence |].
  destruct (string_dec key key') as [<- | Hne].
  2:{ cbn [absorbed] in *.
      now rewrite (walk_other_key _ _ _ _ _ _ H Hne). }
  cbn [absorbed] in Habs.
  destruct (get current key) as [| v |] eqn:G; [contradiction | |].
  - destruct Habs as [T Hv].
    destruct rest' as [| next rest'].
    + rewrite walk_last, G, T in H.
      destruct v as [s | child]; injection H as <-.
      * cbn [absorbed]. rewrite G. now split.
      * cbn [absorbed]. rewrite get_set_same.
        split; [now apply truthy_Str | exact I].
    + rewrite walk_more, G, T in H.
      destruct v as [s | child].
      * destruct (off_tree (next :: rest')); try discriminate; try stuck.
        injection H as <-. cbn [absorbed]. rewrite G. now split.
      * destruct (walk type (next :: rest') child) as [c | |] eqn:W;
          try discriminate.
        injection H as <-. cbn [absorbed]. rewrite get_set_same.
        split; [reflexivity |]. eapply IH; eauto.
  - destruct rest' as [| next rest'].
    + rewrite walk_last, G in H. injection H as <-.
      cbn [absorbed]. now rewrite G.
    + rewrite walk_more, G in H. stuck.
Qed.

End Settled.

Section Unclaimed.

Lemma unclaimed_fresh path :
  path <> [] -> forallb plain path = true -> unclaimed path [] = true.
Proof.
  destruct path as [| key rest]; [congruence |].
  intros _ H. simpl in H. apply andb_prop in H as [Hk Hrest].
  cbn [unclaimed]. unfold get. simpl.
  unfold plain in Hk. apply negb_true_iff in Hk. now rewrite Hk.
Qed.

(** On an unclaimed path the walk returns and leaves the type at the
    end of the path. *)
Lemma walk_unclaimed type path :
  forall current,
    unclaimed path current = true ->
    exists current',
      walk type path current = Done current' /\
      get_path path current' = Some (Str type).
Proof.
  induction path as [| key rest IH]; intros current H; [discriminate |].
  cbn [unclaimed] in H.
  destruct rest as [| next rest].
  - rewrite walk_last.
    destruct (get current key) as [| [s | child] |]; try discriminate;
      (eexists; split; [reflexivity | simpl; apply lookup_set_same]).
  - rewrite walk_more.
    destruct (get current key) as [| [s | child] |]; try discriminate.
    + destruct (IH [] (unclaimed_fresh (next :: rest) ltac:(easy) H))
        as (c & -> & Hc).
      simpl bind. eexists; split; [reflexivity |].
      cbn [get_path]. now rewrite lookup_set_same.
    + destruct (IH child H) as (c & -> & Hc).
      simpl truthy. cbv iota. simpl bind. eexists; split; [reflexivity |].
      cbn [get_path]. now rewrite lookup_set_same.
Qed.

(** A longer unclaimed path leaves a nested object at each proper prefix. *)
Lemma walk_unclaimed_prefix type prefix :
  forall more current,
    prefix <> [] -> more <> [] ->
    unclaimed (prefix ++ more) current = true ->
    exists current' child,
      walk type (prefix ++ more) current = Done current' /\
      get_path prefix current' = Some (Obj child).
Proof.
  induction prefix as [| key rest IH]; intros more current Hp Hm H;
    [congruence |].
  destruct more as [| m ms]; [congruence |].
  destruct rest as [| next rest].
  - change ([key] ++ m :: ms) with (key :: m :: ms) in *.
    cbn [unclaimed] in H. rewrite walk_more.
    destruct (get current key) as [| [s | child] |]; try discriminate.
    + destruct (walk_unclaimed type (m :: ms) []
                  (unclaimed_fresh (m :: ms) ltac:(easy) H)) as (c & -> & _).
      simpl bind. do 2 eexists; split; [reflexivity |].
      simpl. apply lookup_set_same.
    + destruct (walk_unclaimed type (m :: ms) child H) as (c & -> & _).
      simpl truthy. cbv iota. simpl bind.
      do 2 eexists; split; [reflexivity |]. simpl. apply lookup_set_same.
  - change ((key :: next :: rest) ++ m :: ms)
      with (key :: (next :: rest) ++ m :: ms) in *.
    change ((next :: rest) ++ m :: ms)
      with (next :: (rest ++ m :: ms)) in *.
    cbn [unclaimed] in H. rewrite walk_more.
    change (next :: (rest ++ m :: ms))
      with ((next :: rest) ++ m :: ms) in *.
    destruct (get current key) as [| [s | child] |]; try discriminate.
    + destruct (IH (m :: ms) [] ltac:(easy) ltac:(easy)
                  (unclaimed_fresh ((next :: rest) ++ m :: ms) ltac:(easy) H))
        as (c & inner & -> & Hc).
      simpl bind. do 2 eexists; split; [reflexivity |].
      cbn [get_path]. rewrite lookup_set_same. exact Hc.
    + destruct (IH (m :: ms) child ltac:(easy) ltac:(easy) H)
        as (c & inner & -> & Hc).
      simpl truthy. cbv iota. simpl bind.
      do 2 eexists; split; [reflexivity |].
      cbn [get_path]. rewrite lookup_set_same. exact Hc.
Qed.

(** At a terminal type string the walk changes nothing. *)
Lemma walk_at_terminal type path :
  forall current s,
    get_path path current = Some (Str s) -> s <> EmptyString ->
    walk type path current = Done current.
Proof.
  induction path as [| key rest IH]; intros current s H Hs; [discriminate |].
  destruct rest as [| next rest].
  - simpl in H. now rewrite walk_last, (get_own _ _ _ H), (truthy_Str _ Hs).
  - cbn [get_path] in H.
    destruct (lookup key current) as [[s' | inner] |] eqn:E; try discriminate.
    rewrite walk_more, (get_own _ _ _ E). simpl truthy. cbv iota.
    rewrite (IH inner s H Hs). simpl. now rewrite (set_same _ _ _ E).
Qed.

(** A descriptor whose path is settled is skipped by the loop. *)
Lemma build_skips later :
  off_tree (split (name later)) = true ->
  forall mid post defs,
    absorbed (split (name later)) defs ->
    build (mid ++ later :: post) defs = build (mid ++ post) defs.
Proof.
  intros Hsafe. induction mid as [| f mid IH]; intros post defs Habs.
  - simpl. unfold insert_field at 1.
    now rewrite (walk_settled_noop _ _ _ Habs Hsafe).
  - simpl. destruct (insert_field f defs) as [defs' | |] eqn:E; simpl; auto.
    apply IH. eapply absorbed_kept; eauto. apply effective_type_not_empty.
Qed.

End Unclaimed.

(** * The claims about validation *)

Section ValidationClaims.

Lemma fieldSchema_well_shaped m n :
  member "name" m = Some (JStr n) -> optional_ok m = true ->
  exists f,
    fieldSchema (JObj m) = Some f /\ name f = n /\
    type f = match member "type" m with Some (JStr t) => t | _ => "any" end.
Proof.
  intros Hn Hok. unfold optional_ok in Hok.
  apply andb_prop in Hok as [Hok Hd]. apply andb_prop in Hok as [Hok Hh].
  apply andb_prop in Hok as [Ht Hu].
  simpl. rewrite Hn. simpl.
  destruct (member "type" m) as [[] |]; try discriminate;
    destruct (member "unit" m) as [[] |]; try discriminate;
    destruct (member "hidden" m) as [[] |]; try discriminate;
    destruct (member "description" m) as [[] |]; try discriminate;
    simpl; eexists; repeat split; reflexivity.
Qed.

(** C7: the single-element input [[{name: "a"}]] validates to exactly the
    fully defaulted descriptor
    [{name: "a", type: "any", unit: "", hidden: false, description: ""}];
    the same holds for every other name in place of ["a"]. *)
Theorem defaulting_of_a_bare_name :
  fieldsSchema_parse (JArr [JObj [("name", JStr "a")]])
  = Done [Field "a" "any" "" false ""]
  /\ forall n,
       fieldsSchema_parse (JArr [JObj [("name", JStr n)]])
       = Done [Field n "any" "" false ""].
Proof.
  split; [| intros n]; unfold fieldsSchema_parse; cbn [each];
    unfold fieldSchema; simpl; reflexivity.
Qed.

(** C5: when some element of the input array has a wrong shape (it is not
    an object, its name is missing or not a string, or an optional field
    that is present has the wrong primitive type), [fieldsSchema.parse]
    throws, so [convertSchemaToJSON] throws the validation error without
    reaching the loop that builds the tree: neither a tree nor a list of
    validated fields is produced. *)
Theorem validation_is_atomic (items : list json) (bad : json) :
  In bad items -> wrong_shape bad ->
  fieldsSchema_parse (JArr items) = Raise ZodError /\
  convertSchemaToJSON (JArr items) = Raise ZodError.
Proof.
  intros Hin Hbad.
  assert (H : fieldsSchema_parse (JArr items) = Raise ZodError).
  { unfold fieldsSchema_parse.
    now rewrite (each_rejects items bad Hin (fieldSchema_rejects bad Hbad)). }
  split; [exact H |]. unfold convertSchemaToJSON. now rewrite H.
Qed.

Lemma validation_is_atomic_witness :
  convertSchemaToJSON
    (JArr [descriptor "status" "int";
           JObj [("name", JStr "x"); ("hidden", JStr "yes")];
           JObj [("type", JStr "string")]])
  = Raise ZodError.
Proof.
  apply (validation_is_atomic
           [descriptor "status" "int";
            JObj [("name", JStr "x"); ("hidden", JStr "yes")];
            JObj [("type", JStr "string")]]
           (JObj [("name", JStr "x"); ("hidden", JStr "yes")])).
  - simpl. right. left. reflexivity.
  - apply (hidden_not_boolean _ (JStr "yes")); reflexivity.
Defined.

(** C9, as stated, fails: a descriptor whose name is the empty string
    passes validation. *)
Lemma empty_name_is_accepted :
  fieldsSchema_parse (JArr [JObj [("name", JStr "")]])
  = Done [Field "" "any" "" false ""]
  /\ fieldsSchema_parse (JArr [JObj [("name", JStr "")]]) <> Raise ZodError
  /\ convertSchemaToJSON (JArr [JObj [("name", JStr "")]])
     = Done [("", Str "any")].
Proof.
  repeat split; try reflexivity. discriminate.
Qed.

(** C9, amended: [name] is checked with [z.string()] only, so an element
    whose name is the empty string is validated like any other element: it
    does not make the batch fail, and its validated descriptor carries the
    empty name. *)
Theorem empty_name_passes_validation
  (before after : list json) (fs1 fs2 : list field) (m : list (string * json)) :
  member "name" m = Some (JStr "") -> optional_ok m = true ->
  each before = Some fs1 -> each after = Some fs2 ->
  exists f,
    name f = "" /\
    fieldsSchema_parse (JArr (before ++ JObj m :: after))
    = Done (fs1 ++ f :: fs2).
Proof.
  intros Hn Hok H1 H2.
  destruct (fieldSchema_well_shaped m "" Hn Hok) as (f & Hf & Hname & _).
  exists f. split; [exact Hname |].
  unfold fieldsSchema_parse.
  rewrite (each_app before (JObj m :: after) fs1 (f :: fs2) H1); [reflexivity |].
  cbn [each]. now rewrite Hf, H2.
Qed.

Lemma empty_name_passes_validation_witness :
  exists f,
    name f = "" /\
    fieldsSchema_parse
      (JArr ([descriptor "a" "int"] ++ JObj [("name", JStr "")]
             :: [descriptor "b" "string"]))
    = Done ([validated "a" "int"] ++ f :: [validated "b" "string"]).
Proof.
  apply (empty_name_passes_validation
           [descriptor "a" "int"] [descriptor "b" "string"]
           [validated "a" "int"] [validated "b" "string"]
           [("name", JStr "")]); reflexivity.
Defined.

End ValidationClaims.

(** * The claims about path insertion *)

Section InsertionClaims.

(** C1, as stated, fails on the specification's own example: the second
    descriptor does not replace the type the first one stored. *)
Lemma later_duplicate_does_not_win :
  convertSchemaToJSON (JArr [descriptor "a" "string"; descriptor "a" "int"])
  = Done [("a", Str "string")]
  /\ get_path (split "a") [("a", Str "string")] <> Some (Str "int").
Proof.
  split; [reflexivity | discriminate].
Qed.

(** C1, amended: the terminal assignment only replaces a nested object,
    never a type string, so of two descriptors with the same full name the
    later one is skipped, wherever the two stand in the input: the result
    is the one obtained without it.  For the two-descriptor input the path
    holds the type of the earlier descriptor (first write wins).  Names
    with a segment before the last one that names a built-in property are
    left aside, and for the second part names with an inherited segment. *)
Theorem first_write_wins (earlier later : field) :
  name earlier = name later ->
  off_tree (split (name earlier)) = true ->
  (forall fields fields' pre mid post,
     fieldsSchema_parse fields
     = Done (pre ++ earlier :: mid ++ later :: post) ->
     fieldsSchema_parse fields' = Done (pre ++ earlier :: mid ++ post) ->
     convertSchemaToJSON fields = convertSchemaToJSON fields')
  /\ (forall fields,
        fieldsSchema_parse fields = Done [earlier; later] ->
        forallb plain (split (name earlier)) = true ->
        exists defs,
          convertSchemaToJSON fields = Done defs /\
          get_path (split (name earlier)) defs
          = Some (Str (effective_type earlier))).
Proof.
  intros Hname Hsafe. split.
  - intros fields fields' pre mid post Hparse Hparse'.
    rewrite (convertSchemaToJSON_validated _ _ Hparse),
            (convertSchemaToJSON_validated _ _ Hparse').
    unfold flatten. rewrite !build_app.
    destruct (build pre []) as [defs | |]; simpl; auto.
    destruct (insert_field earlier defs) as [defs1 | |] eqn:E; simpl; auto.
    apply build_skips; [now rewrite <- Hname |].
    rewrite <- Hname. unfold insert_field in E.
    eapply walk_settles; eauto using effective_type_not_empty, split_not_nil.
  - intros fields Hparse Hplain.
    rewrite (convertSchemaToJSON_validated _ _ Hparse).
    unfold flatten. simpl. unfold insert_field.
    destruct (walk_unclaimed (effective_type earlier) (split (name earlier)) []
                (unclaimed_fresh _ (split_not_nil _) Hplain))
      as (defs & -> & Hg).
    simpl. rewrite <- Hname.
    rewrite (walk_at_terminal _ _ _ _ Hg (effective_type_not_empty earlier)).
    simpl. eauto.
Qed.

Lemma first_write_wins_witness :
  convertSchemaToJSON
    (JArr [descriptor "z" "bool"; descriptor "a" "string";
           descriptor "a.b" "x"; descriptor "a" "int"])
  = convertSchemaToJSON
      (JArr [descriptor "z" "bool"; descriptor "a" "string";
             descriptor "a.b" "x"])
  /\ exists defs,
       convertSchemaToJSON (JArr [descriptor "a" "string"; descriptor "a" "int"])
       = Done defs /\
       get_path (split "a") defs = Some (Str "string").
Proof.
  destruct (first_write_wins (validated "a" "string") (validated "a" "int")
              eq_refl eq_refl) as [H1 H2].
  split.
  - apply (H1 _ _ [validated "z" "bool"] [validated "a.b" "x"] []);
      reflexivity.
  - apply (H2 (JArr [descriptor "a" "string"; descriptor "a" "int"]));
      reflexivity.
Defined.









End InsertionClaims.

(** * Key order *)

Section KeyOrderFacts.

Lemma mem_In key l : mem key l = true <-> In key l.
Proof.
  unfold mem. rewrite existsb_exists. split.
  - intros (x & Hin & Heq). apply String.eqb_eq in Heq. now subst.
  - intros H. exists key. split; [exact H | apply String.eqb_refl].
Qed.

Lemma mem_false_In key l : mem key l = false <-> ~ In key l.
Proof.
  rewrite <- mem_In. destruct (mem key l); split; congruence.
Qed.

Lemma mem_keys key o :
  mem key (keys o) = match lookup key o with Some _ => true | None => false end.
Proof.
  induction o as [| [k v] rest IH]; simpl; auto.
  rewrite String.eqb_sym. destruct (String.eqb k key); simpl; auto.
Qed.

Lemma keys_place_index n key v o :
  keys (place_index n key v o) = place_key n key (keys o).
Proof.
  induction o as [| [k w] rest IH]; simpl; auto.
  destruct (array_index k) as [m |]; [destruct (m <? n)%N |]; simpl; auto.
  now rewrite <- IH.
Qed.

Lemma keys_set key v o : keys (set key v o) = add_key key (keys o).
Proof.
  unfold set, add_key. rewrite mem_keys.
  destruct (lookup key o).
  - apply keys_update.
  - unfold define_own. destruct (array_index key).
    + apply keys_place_index.
    + unfold keys. rewrite map_app. reflexivity.
Qed.

Lemma add_key_present key o v :
  lookup key o = Some v -> add_key key (keys o) = keys o.
Proof. intros H. unfold add_key. now rewrite mem_keys, H. Qed.

(** The top-level keys after one walk. *)
Lemma walk_keys type key rest current current' :
  walk type (key :: rest) current = Done current' ->
  keys current' = if inherited key then keys current
                  else add_key key (keys current).
Proof.
  intros H.
  assert (Hset : forall v, keys (set key v current) = add_key key (keys current))
    by (intros; apply keys_set).
  assert (Hown : forall v, get current key = Own v ->
                           keys current = add_key key (keys current)).
  { intros v G. unfold get in G.
    destruct (lookup key current) as [w |] eqn:E.
    - symmetry. eapply add_key_present; eauto.
    - destruct (inherited key); discriminate. }
  assert (Hupd : forall v w, get current key = Own v ->
                             keys (set key w current) = keys current).
  { intros v w G. rewrite Hset. symmetry. eauto. }
  assert (Hmiss : get current key = Missing -> inherited key = false).
  { unfold get. destruct (lookup key current); [discriminate |].
    now destruct (inherited key). }
  destruct rest as [| next rest].
  - rewrite walk_last in H.
    destruct (get current key) as [| v |] eqn:G.
    + injection H as <-. now rewrite Hmiss, Hset.
    + assert (K : keys current' = keys current).
      { destruct (truthy v); [destruct v |]; injection H as <-; eauto. }
      rewrite K. destruct (inherited key); eauto.
    + injection H as <-. now rewrite (get_inherited _ _ G).
  - rewrite walk_more in H.
    destruct (get current key) as [| v |] eqn:G.
    + destruct (walk type (next :: rest) []); try discriminate.
      injection H as <-. now rewrite Hmiss, Hset.
    + assert (K : keys current' = keys current).
      { destruct (truthy v); [destruct v as [s | child] |].
        - destruct (off_tree (next :: rest)); try discriminate; try stuck.
          now injection H as <-.
        - destruct (walk type (next :: rest) child); try discriminate.
          injection H as <-; eauto.
        - destruct (walk type (next :: rest) []); try discriminate.
          injection H as <-; eauto. }
      rewrite K. destruct (inherited key); eauto.
    + stuck.
Qed.

Lemma split_top f : exists rest, split (name f) = top f :: rest.
Proof.
  unfold top. destruct (split (name f)) as [| k rest] eqn:E.
  - now apply split_not_nil in E.
  - now exists rest.
Qed.

(** The top-level keys after the whole loop. *)
Lemma build_keys fs :
  forall defs defs',
    build fs defs = Done defs' ->
    keys defs' = enumerate_from (keys defs) (created_tops fs).
Proof.
  induction fs as [| f rest IH]; intros defs defs' H.
  - simpl in H. now injection H as <-.
  - simpl in H. destruct (insert_field f defs) as [defs1 | |] eqn:E;
      try discriminate.
    simpl in H. rewrite (IH _ _ H).
    unfold insert_field in E. destruct (split_top f) as [more Hsplit].
    rewrite Hsplit in E. rewrite (walk_keys _ _ _ _ _ E).
    unfold created_tops. simpl. unfold plain at 2.
    destruct (inherited (top f)); reflexivity.
Qed.

End KeyOrderFacts.

Section Enumeration.

Lemma is_index_value key :
  is_index key = true -> array_index key = Some (index_value key).
Proof.
  unfold is_index, index_value. now destruct (array_index key).
Qed.

Lemma not_index_none key : is_index key = false -> array_index key = None.
Proof. unfold is_index. now destruct (array_index key). Qed.

Lemma In_place_key n key ks x :
  In x (place_key n key ks) <-> x = key \/ In x ks.
Proof.
  induction ks as [| k rest IH]; simpl.
  - intuition.
  - destruct (array_index k) as [m |]; [destruct (m <? n)%N |]; simpl;
      rewrite ?IH; intuition.
Qed.

Lemma In_add_key key ks x : In x (add_key key ks) <-> x = key \/ In x ks.
Proof.
  unfold add_key. destruct (mem key ks) eqn:M.
  - apply mem_In in M. intuition (subst; auto).
  - destruct (array_index key).
    + apply In_place_key.
    + rewrite in_app_iff. simpl. intuition.
Qed.

Lemma In_enumerate_from l :
  forall acc x, In x (enumerate_from acc l) <-> In x acc \/ In x l.
Proof.
  induction l as [| k rest IH]; intros acc x; simpl.
  - intuition.
  - unfold enumerate_from in *. simpl. rewrite IH, In_add_key. intuition.
Qed.

Lemma mem_add_key key ks x :
  mem x (add_key key ks) = (String.eqb x key || mem x ks).
Proof.
  apply eq_true_iff_eq.
  rewrite orb_true_iff, !mem_In, In_add_key, String.eqb_eq. reflexivity.
Qed.

(** Placing an array index leaves the other keys where they are. *)
Lemma place_key_app n key idx others :
  Forall (fun k => is_index k = false) others ->
  place_key n key (idx ++ others) = place_key n key idx ++ others.
Proof.
  intros Hothers. induction idx as [| i idx IH]; simpl.
  - destruct others as [| o others]; [reflexivity |].
    simpl. inversion Hothers as [| ? ? Ho _]; subst.
    now rewrite (not_index_none _ Ho).
  - destruct (array_index i) as [m |]; [destruct (m <? n)%N |]; simpl; auto.
    now rewrite IH.
Qed.

Lemma place_key_ascending n key idx :
  index_value key = n ->
  Forall (fun k => is_index k = true) idx ->
  ascending idx -> ascending (place_key n key idx).
Proof.
  intros Hn Hidx Hasc. induction Hasc as [| i idx Hle Hasc IH]; simpl.
  - constructor; [constructor | constructor].
  - inversion Hidx as [| ? ? Hi Hrest]; subst.
    rewrite (is_index_value _ Hi).
    destruct (index_value i <? index_value key)%N eqn:L.
    + apply N.ltb_lt in L. constructor; [| now apply IH].
      apply Forall_forall. intros x Hx. apply In_place_key in Hx as [-> | Hx].
      * lia.
      * rewrite Forall_forall in Hle. now apply Hle.
    + apply N.ltb_ge in L. constructor; [| now constructor].
      constructor; [exact L |].
      apply Forall_forall. intros x Hx. rewrite Forall_forall in Hle.
      specialize (Hle x Hx). lia.
Qed.

Lemma add_key_partitioned key ks idx others :
  partitioned ks idx others ->
  exists idx' others', partitioned (add_key key ks) idx' others'.
Proof.
  intros (Hks & Hidx & Hothers & Hasc). unfold add_key.
  destruct (mem key ks); [exists idx, others; repeat split; auto |].
  destruct (array_index key) as [n |] eqn:A.
  - exists (place_key n key idx), others. subst ks. repeat split; auto.
    + now apply place_key_app.
    + apply Forall_forall. intros x Hx. apply In_place_key in Hx as [-> | Hx].
      * unfold is_index. now rewrite A.
      * rewrite Forall_forall in Hidx. now apply Hidx.
    + apply place_key_ascending; auto. unfold index_value. now rewrite A.
  - exists idx, (others ++ [key]). subst ks. repeat split; auto.
    + now rewrite app_assoc.
    + apply Forall_app. split; [exact Hothers |].
      constructor; [| constructor]. unfold is_index. now rewrite A.
Qed.

Lemma enumerate_partitioned l :
  forall acc idx others,
    partitioned acc idx others ->
    exists idx' others', partitioned (enumerate_from acc l) idx' others'.
Proof.
  induction l as [| k rest IH]; intros acc idx others H.
  - now exists idx, others.
  - destruct (add_key_partitioned k _ _ _ H) as (idx1 & others1 & H1).
    exact (IH _ _ _ H1).
Qed.

Lemma filter_not_index_place_key n key ks :
  is_index key = true ->
  filter not_index (place_key n key ks) = filter not_index ks.
Proof.
  intros Hk.
  assert (Hdrop : forall l, filter not_index (key :: l) = filter not_index l).
  { intros l. simpl. unfold not_index at 1. now rewrite Hk. }
  induction ks as [| k rest IH].
  - apply Hdrop.
  - cbn [place_key].
    destruct (array_index k) as [m |]; [destruct (m <? n)%N |];
      try apply Hdrop.
    simpl. now rewrite IH.
Qed.

Lemma filter_not_index_add_key key ks :
  filter not_index (add_key key ks) =
  if is_index key || mem key ks then filter not_index ks
  else filter not_index ks ++ [key].
Proof.
  unfold add_key. destruct (mem key ks); [now rewrite orb_true_r |].
  rewrite orb_false_r. destruct (is_index key) eqn:I.
  - rewrite (is_index_value _ I). now apply filter_not_index_place_key.
  - rewrite (not_index_none _ I), filter_app. simpl.
    unfold not_index at 2. now rewrite I.
Qed.

(** The keys that are not array indices come in creation order. *)
Lemma enumerate_not_index l :
  forall acc seen,
    (forall k, is_index k = false -> mem k acc = mem k seen) ->
    filter not_index (enumerate_from acc l)
    = filter not_index acc ++ first_occurrences seen (filter not_index l).
Proof.
  induction l as [| k rest IH]; intros acc seen Hmem.
  - simpl. now rewrite app_nil_r.
  - change (enumerate_from acc (k :: rest))
      with (enumerate_from (add_key k acc) rest).
    simpl filter. unfold not_index at 3.
    destruct (is_index k) eqn:I; simpl negb; cbv iota.
    + rewrite (IH (add_key k acc) seen).
      * now rewrite filter_not_index_add_key, I.
      * intros x Hx. rewrite mem_add_key, <- (Hmem x Hx).
        destruct (String.eqb x k) eqn:E; [| reflexivity].
        apply String.eqb_eq in E. congruence.
    + cbn [first_occurrences]. rewrite <- (Hmem k I).
      destruct (mem k acc) eqn:M.
      * rewrite (IH (add_key k acc) seen).
        -- now rewrite filter_not_index_add_key, I, M.
        -- intros x Hx. rewrite mem_add_key, <- (Hmem x Hx).
           destruct (String.eqb x k) eqn:E; [| reflexivity].
           apply String.eqb_eq in E. subst x. now rewrite M.
      * rewrite (IH (add_key k acc) (k :: seen)).
        -- rewrite filter_not_index_add_key, I, M. simpl.
           now rewrite <- app_assoc.
        -- intros x Hx. rewrite mem_add_key. simpl.
           now rewrite (Hmem x Hx).
Qed.

Lemma partitioned_filters ks idx others :
  partitioned ks idx others ->
  filter not_index ks = others /\ filter is_index ks = idx.
Proof.
  intros (-> & Hidx & Hothers & _). rewrite !filter_app.
  assert (E1 : filter not_index idx = [] /\ filter is_index idx = idx).
  { clear Hothers. induction Hidx as [| k idx Hk _ [IH1 IH2]]; simpl; auto.
    unfold not_index at 1. rewrite Hk. simpl. now rewrite IH2. }
  assert (E2 : filter not_index others = others /\ filter is_index others = []).
  { clear Hidx E1.
    induction Hothers as [| k others Hk _ [IH1 IH2]]; simpl; auto.
    unfold not_index at 1. rewrite Hk. simpl. now rewrite IH1. }
  destruct E1 as [E1 E1'], E2 as [E2 E2'].
  rewrite E1, E1', E2, E2'. now rewrite app_nil_r.
Qed.

(** The enumeration of a sequence of created keys. *)
Lemma enumerate_shape l :
  exists idx,
    enumerate_from [] l = idx ++ creation_order (filter not_index l) /\
    ascending idx /\
    (forall k, In k idx <-> In k l /\ is_index k = true).
Proof.
  destruct (enumerate_partitioned l [] [] [])
    as (idx & others & Hpart).
  { repeat split; constructor. }
  destruct (partitioned_filters _ _ _ Hpart) as [Hothers Hidx].
  pose proof (enumerate_not_index l [] [] (fun _ _ => eq_refl)) as Hn.
  simpl in Hn. rewrite Hothers in Hn.
  destruct Hpart as (Hks & Hall & _ & Hasc).
  exists idx. repeat split; auto.
  - now rewrite Hks, Hn.
  - assert (Hin : In k (enumerate_from [] l)) by (rewrite <- Hidx in H; now apply filter_In in H).
    apply In_enumerate_from in Hin as [[] | Hin]. exact Hin.
  - rewrite <- Hidx in H. now apply filter_In in H.
  - intros [Hin Hk]. rewrite <- Hidx. apply filter_In. split; [| exact Hk].
    apply In_enumerate_from. now right.
Qed.

End Enumeration.

(** * Rendering *)

Section Rendering.

(** Induction over values, through the entries of nested objects. *)
Lemma value_nested_ind (P : value -> Prop) :
  (forall s, P (Str s)) ->
  (forall defs, Forall (fun kv => P (snd kv)) defs -> P (Obj defs)) ->
  forall v, P v.
Proof.
  intros HStr HObj. fix IH 1. intros [s | defs].
  - apply HStr.
  - apply HObj. induction defs as [| [k v] rest IHrest]; constructor.
    + apply IH.
    + exact IHrest.
Qed.

Lemma repeat_space_ok count :
  (0 <= count)%Z -> repeat_space count = Done (spaces (Z.to_nat count)).
Proof.
  intros H. unfold repeat_space.
  destruct (count <? 0)%Z eqn:E; [apply Z.ltb_lt in E; lia | reflexivity].
Qed.

Lemma repeat_space_negative count :
  (count < 0)%Z -> repeat_space count = Raise RangeError.
Proof.
  intros H. unfold repeat_space. apply Z.ltb_lt in H. now rewrite H.
Qed.

(** The equation of [getStringifiedSchema]. *)
Lemma stringify_Obj defs indent :
  stringify (Obj defs) indent =
  (pad <- repeat_space indent ;;
   lines <- entries pad indent defs ;;
   closing <- repeat_space (indent - 2) ;;
   Done ("{" +++ newline +++ join newline lines +++ newline
             +++ closing +++ "}")).
Proof.
  cbn [stringify]. destruct (repeat_space indent) as [pad | |]; cbn [bind]; auto.
  match goal with
  | |- bind ?a _ = bind ?b _ => assert (E : a = b); [| now rewrite E]
  end.
  induction defs as [| [k v] rest IH]; [reflexivity |].
  cbn [entries]. rewrite <- IH. reflexivity.
Qed.

(** From indentation 2 on, the renderer returns the text laid out as the
    specification describes. *)
Lemma stringify_rendered v :
  forall indent,
    (2 <= indent)%Z -> stringify v indent = Done (rendered v (Z.to_nat indent)).
Proof.
  induction v as [s | defs IH] using value_nested_ind; intros indent Hindent.
  - reflexivity.
  - rewrite stringify_Obj, repeat_space_ok by lia. cbn [bind].
    assert (Hlines :
              entries (spaces (Z.to_nat indent)) indent defs
              = Done (map (fun kv : string * value =>
                             let (key, value) := kv in
                             entry_line (Z.to_nat indent) key
                               (rendered value (Z.to_nat indent + 2)))
                          defs)).
    { induction IH as [| [k w] rest Hw _ IHrest]; [reflexivity |].
      cbn [entries map]. simpl in Hw.
      rewrite (Hw (indent + 2)%Z) by lia. cbn [bind].
      rewrite IHrest. cbn [bind].
      replace (Z.to_nat (indent + 2)) with (Z.to_nat indent + 2)%nat by lia.
      reflexivity. }
    rewrite Hlines. cbn [bind].
    rewrite repeat_space_ok by lia. cbn [bind rendered].
    unfold brace_block.
    replace (Z.to_nat (indent - 2)) with (Z.to_nat indent - 2)%nat by lia.
    reflexivity.
Qed.

Lemma rendered_entries defs indent :
  rendered (Obj defs) indent = brace_block indent (map (entry indent) defs).
Proof.
  cbn [rendered]. f_equal. apply map_ext. now intros [k v].
Qed.

Lemma getStringifiedSchema_block defs indent :
  (2 <= indent)%Z ->
  getStringifiedSchema defs indent
  = Done (brace_block (Z.to_nat indent) (map (entry (Z.to_nat indent)) defs)).
Proof.
  intros Hindent. unfold getStringifiedSchema.
  rewrite (stringify_rendered (Obj defs) indent Hindent).
  now rewrite rendered_entries.
Qed.

(** Below indentation 2 the closing brace cannot be indented two spaces
    less, and the renderer throws. *)
Lemma stringify_narrow defs indent :
  (indent < 2)%Z -> getStringifiedSchema defs indent = Raise RangeError.
Proof.
  intros H. unfold getStringifiedSchema. rewrite stringify_Obj.
  destruct (Z.ltb_spec indent 0) as [Hneg | Hpos].
  - now rewrite repeat_space_negative.
  - rewrite repeat_space_ok by lia. cbn [bind].
    assert (Hlines : exists lines,
               entries (spaces (Z.to_nat indent)) indent defs = Done lines).
    { induction defs as [| [k v] rest [lines IH]]; [now exists [] |].
      cbn [entries]. destruct v as [s | inner].
      - simpl stringify. cbn [bind]. rewrite IH. cbn [bind]. eauto.
      - rewrite (stringify_rendered (Obj inner) (indent + 2)) by lia.
        cbn [bind]. rewrite IH. cbn [bind]. eauto. }
    destruct Hlines as [lines ->]. cbn [bind].
    now rewrite repeat_space_negative by lia.
Qed.

End Rendering.

(** * The claims about rendering *)

Section RenderingClaims.

(** C6, as stated for every indent, fails: below 2 the closing brace
    would need a negative number of spaces and the renderer throws. *)
Lemma narrow_indent_is_rejected :
  getStringifiedSchema [("status", Str "int")] 0 = Raise RangeError
  /\ getStringifiedSchema [("status", Str "int")] 1 = Raise RangeError.
Proof.
  split; apply stringify_narrow; lia.
Qed.

(** C6, amended: for every tree and every indent of at least 2,
    [getStringifiedSchema] returns a brace-delimited block: [{] on the
    first line, one line per entry, and a closing [}] indented two spaces
    less than the entries.  A terminal key gives the line
    [<indent><key>: <type>;]; a nested key gives [<indent><key>: ],
    the text the renderer returns for the sub-tree with the indent
    increased by 2, then [;]. *)
Theorem rendering_layout (defs : object) (indent : Z) :
  (2 <= indent)%Z ->
  getStringifiedSchema defs indent
  = Done (brace_block (Z.to_nat indent) (map (entry (Z.to_nat indent)) defs))
  /\ (forall key type,
        entry (Z.to_nat indent) (key, Str type)
        = spaces (Z.to_nat indent) +++ key +++ ": " +++ type +++ ";")
  /\ (forall key inner,
        exists text,
          getStringifiedSchema inner (indent + 2) = Done text /\
          entry (Z.to_nat indent) (key, Obj inner)
          = spaces (Z.to_nat indent) +++ key +++ ": " +++ text +++ ";").
Proof.
  intros Hindent. repeat split.
  - now apply getStringifiedSchema_block.
  - intros key inner. exists (rendered (Obj inner) (Z.to_nat indent + 2)).
    split; [| reflexivity].
    unfold getStringifiedSchema.
    rewrite (stringify_rendered (Obj inner) (indent + 2)) by lia.
    now replace (Z.to_nat (indent + 2)) with (Z.to_nat indent + 2)%nat by lia.
Qed.

Lemma rendering_layout_witness :
  getStringifiedSchema
    [("request", Obj [("method", Str "string"); ("duration", Str "int64")])] 2
  = Done "{
  request: {
    method: string;
    duration: int64;
  };
}".
Proof.
  rewrite (proj1 (rendering_layout
                    [("request",
                      Obj [("method", Str "string"); ("duration", Str "int64")])]
                    2 ltac:(lia))).
  reflexivity.
Defined.

(** The two worked examples of the specification, from the raw input to
    the text. *)
Example single_level_example :
  (defs <- convertSchemaToJSON
             (JArr [descriptor "status" "int"; descriptor "message" "string"]) ;;
   getStringifiedSchema defs 2)
  = Done "{
  status: int;
  message: string;
}".
Proof. reflexivity. Qed.

Example nested_example :
  (defs <- convertSchemaToJSON
             (JArr [descriptor "request.method" "string";
                    descriptor "request.duration" "int64"]) ;;
   getStringifiedSchema defs 2)
  = Done "{
  request: {
    method: string;
    duration: int64;
  };
}".
Proof. reflexivity. Qed.

(** C4, as stated for all key strings, fails: a key that is an array
    index is listed before the keys created earlier. *)
Lemma array_index_keys_come_first :
  convertSchemaToJSON (JArr [descriptor "b" "string"; descriptor "1" "int"])
  = Done [("1", Str "int"); ("b", Str "string")]
  /\ getStringifiedSchema [("1", Str "int"); ("b", Str "string")] 2
     = Done "{
  1: int;
  b: string;
}"
  /\ creation_order
       (created_tops [validated "b" "string"; validated "1" "int"])
     = ["b"; "1"]
  /\ keys [("1", Str "int"); ("b", Str "string")]
     <> creation_order
          (created_tops [validated "b" "string"; validated "1" "int"]).
Proof.
  repeat split; try reflexivity. discriminate.
Qed.

End RenderingClaims.

(** * Further properties of the helper *)

Section Further.

(** X1: a descriptor whose name is a single segment that object literals
    inherit from [Object.prototype] (such as [constructor] or [toString])
    is not stored: [current[key]] reads the inherited built-in, neither
    branch assigns, and the tree stays as it was. *)
Theorem inherited_name_is_not_stored (f : field) (key : string) (defs : object) :
  split (name f) = [key] -> inherited key = true -> lookup key defs = None ->
  insert_field f defs = Done defs.
Proof.
  intros Hsplit Hkey Hown. unfold insert_field.
  rewrite Hsplit, walk_last. unfold get. now rewrite Hown, Hkey.
Qed.

Lemma inherited_name_is_not_stored_witness :
  insert_field (validated "constructor" "string") [("a", Str "int")]
  = Done [("a", Str "int")].
Proof.
  apply (inherited_name_is_not_stored
           (validated "constructor" "string") "constructor" [("a", Str "int")]);
    reflexivity.
Defined.

(** X2: for every tree, an indent below 2 makes [getStringifiedSchema]
    throw a [RangeError]. *)
Theorem narrow_indent_raises (defs : object) (indent : Z) :
  (indent < 2)%Z -> getStringifiedSchema defs indent = Raise RangeError.
Proof. apply stringify_narrow. Qed.

Lemma narrow_indent_raises_witness :
  getStringifiedSchema [("a", Obj [("b", Str "int")])] 1 = Raise RangeError.
Proof.
  apply (narrow_indent_raises [("a", Obj [("b", Str "int")])] 1). lia.
Defined.

(** X3: [fieldSchema] rejects an element exactly when its shape is wrong:
    it is not an object, its name is missing or not a string, or an
    optional field that is present has the wrong primitive type. *)
Theorem rejected_iff_wrong_shape (j : json) :
  fieldSchema j = None <-> wrong_shape j.
Proof.
  split; [apply rejected_has_wrong_shape | apply fieldSchema_rejects].
Qed.

(** X4: the insertion of a descriptor returns a tree whenever no segment
    of its name before the last one names a built-in property. *)
Theorem insertion_returns (f : field) (defs : object) :
  off_tree (split (name f)) = true ->
  exists defs', insert_field f defs = Done defs'.
Proof. intros H. now apply walk_returns. Qed.

Lemma insertion_returns_witness :
  exists defs',
    insert_field (validated "request.headers.user_agent" "string")
      [("request", Str "any")]
    = Done defs'.
Proof.
  apply (insertion_returns (validated "request.headers.user_agent" "string")
           [("request", Str "any")]).
  reflexivity.
Defined.

End Further.

(** * Invariants of the trees the flattener builds *)

Section TreeInvariants.

Lemma lookup_In key v o : lookup key o = Some v -> In (key, v) o.
Proof.
  induction o as [| [k w] rest IH]; simpl; [discriminate |].
  destruct (String.eqb k key) eqn:E.
  - apply String.eqb_eq in E. subst k. intros [= ->]. now left.
  - intros H. right. now apply IH.
Qed.

Lemma lookup_In_keys key o : lookup key o <> None <-> In key (keys o).
Proof.
  rewrite <- mem_In, mem_keys. destruct (lookup key o); split; congruence.
Qed.

Lemma In_update key v o kv :
  In kv (update key v o) -> kv = (key, v) \/ In kv o.
Proof.
  induction o as [| [k w] rest IH]; simpl; [tauto |].
  destruct (String.eqb k key) eqn:E; simpl.
  - apply String.eqb_eq in E. subst k. intuition.
  - intros [H | H]; [now right; left | destruct (IH H); auto].
Qed.

Lemma In_place_index n key v o kv :
  In kv (place_index n key v o) -> kv = (key, v) \/ In kv o.
Proof.
  induction o as [| [k w] rest IH]; simpl; [intuition |].
  destruct (array_index k) as [m |]; [destruct (m <? n)%N |]; simpl;
    intuition.
Qed.

Lemma In_set key v o kv : In kv (set key v o) -> kv = (key, v) \/ In kv o.
Proof.
  unfold set, define_own. destruct (lookup key o).
  - apply In_update.
  - destruct (array_index key).
    + apply In_place_index.
    + rewrite in_app_iff. simpl. intuition.
Qed.

Lemma place_key_perm n key ks : Permutation (place_key n key ks) (key :: ks).
Proof.
  induction ks as [| k rest IH]; simpl; [reflexivity |].
  destruct (array_index k) as [m |]; [destruct (m <? n)%N |];
    try reflexivity.
  rewrite IH. apply perm_swap.
Qed.

Lemma NoDup_add_key key ks : NoDup ks -> NoDup (add_key key ks).
Proof.
  intros H. unfold add_key. destruct (mem key ks) eqn:M; [exact H |].
  apply mem_false_In in M.
  assert (Hcons : NoDup (key :: ks)) by now constructor.
  destruct (array_index key).
  - eapply Permutation_NoDup; [| exact Hcons].
    symmetry. apply place_key_perm.
  - eapply Permutation_NoDup; [| exact Hcons].
    apply Permutation_cons_append.
Qed.

Lemma well_formed_empty : well_formed (Obj []).
Proof.
  constructor; try constructor.
  exists [], []. repeat split; constructor.
Qed.

(** Assigning a well-formed value keeps an object well formed, provided
    the key is one the walk may assign. *)
Lemma set_well_formed key v defs :
  well_formed (Obj defs) -> well_formed v -> inherited key = false ->
  well_formed (Obj (set key v defs)).
Proof.
  intros Hdefs Hv Hkey.
  inversion Hdefs as [| ? Hnodup Hplain (idx & others & Hpart) Hvalues]; subst.
  constructor.
  - rewrite keys_set. now apply NoDup_add_key.
  - rewrite keys_set. apply Forall_forall. intros x Hx.
    apply In_add_key in Hx as [-> | Hx]; [exact Hkey |].
    rewrite Forall_forall in Hplain. now apply Hplain.
  - rewrite keys_set. eapply add_key_partitioned; eauto.
  - apply Forall_forall. intros kv Hin.
    apply In_set in Hin as [-> | Hin]; [exact Hv |].
    rewrite Forall_forall in Hvalues. now apply Hvalues.
Qed.

Lemma own_key_not_inherited key v defs :
  well_formed (Obj defs) -> get defs key = Own v -> inherited key = false.
Proof.
  intros Hdefs G.
  inversion Hdefs as [| ? _ Hplain _ _]; subst.
  rewrite Forall_forall in Hplain. apply Hplain.
  apply lookup_In_keys. unfold get in G.
  destruct (lookup key defs); [discriminate |].
  destruct (inherited key); discriminate.
Qed.

Lemma own_value_well_formed key v defs :
  well_formed (Obj defs) -> get defs key = Own v -> well_formed v.
Proof.
  intros Hdefs G.
  inversion Hdefs as [| ? _ _ _ Hvalues]; subst.
  rewrite Forall_forall in Hvalues.
  apply (Hvalues (key, v)). apply lookup_In. unfold get in G.
  destruct (lookup key defs); [congruence |].
  destruct (inherited key); discriminate.
Qed.

Lemma missing_not_inherited key defs :
  get defs key = Missing -> inherited key = false.
Proof.
  unfold get. destruct (lookup key defs); [discriminate |].
  now destruct (inherited key).
Qed.

(** One walk keeps the tree well formed. *)
Lemma walk_well_formed type path :
  type <> EmptyString ->
  forall defs defs',
    well_formed (Obj defs) -> walk type path defs = Done defs' ->
    well_formed (Obj defs').
Proof.
  intros Hty. induction path as [| key rest IH]; intros defs defs' Hwf H.
  - simpl in H. now injection H as <-.
  - assert (Hstr : well_formed (Str type)) by now constructor.
    destruct rest as [| next rest].
    + rewrite walk_last in H.
      destruct (get defs key) as [| v |] eqn:G.
      * injection H as <-. apply set_well_formed; auto.
        now apply missing_not_inherited in G.
      * pose proof (own_key_not_inherited _ _ _ Hwf G) as Hk.
        destruct (truthy v); [destruct v |]; injection H as <-; auto;
          now apply set_well_formed.
      * now injection H as <-.
    + rewrite walk_more in H.
      destruct (get defs key) as [| v |] eqn:G.
      * destruct (walk type (next :: rest) []) as [c | |] eqn:W;
          try discriminate.
        injection H as <-. apply set_well_formed; auto.
        -- eapply IH; [apply well_formed_empty | exact W].
        -- now apply missing_not_inherited in G.
      * pose proof (own_key_not_inherited _ _ _ Hwf G) as Hk.
        pose proof (own_value_well_formed _ _ _ Hwf G) as Hv.
        destruct (truthy v); [destruct v as [s | child] |].
        -- destruct (off_tree (next :: rest)); try discriminate; try stuck.
           now injection H as <-.
        -- destruct (walk type (next :: rest) child) as [c | |] eqn:W;
             try discriminate.
           injection H as <-. apply set_well_formed; auto.
           eapply IH; eauto.
        -- destruct (walk type (next :: rest) []) as [c | |] eqn:W;
             try discriminate.
           injection H as <-. apply set_well_formed; auto.
           eapply IH; [apply well_formed_empty | exact W].
      * stuck.
Qed.

Lemma build_well_formed fs :
  forall defs defs',
    well_formed (Obj defs) -> build fs defs = Done defs' ->
    well_formed (Obj defs').
Proof.
  induction fs as [| f rest IH]; intros defs defs' Hwf H.
  - simpl in H. now injection H as <-.
  - simpl in H. destruct (insert_field f defs) as [d | |] eqn:E;
      try discriminate.
    simpl in H. eapply IH; [| exact H].
    eapply walk_well_formed; eauto using effective_type_not_empty.
Qed.

End TreeInvariants.

Section Provenance.

Lemma get_path_nil path : get_path path [] = None.
Proof. destruct path as [| k [| k' rest]]; reflexivity. Qed.

(** [get_path] reads the tree through the value under the first segment. *)
Lemma get_path_cons key rest defs :
  get_path (key :: rest) defs =
  match rest with
  | [] => lookup key defs
  | _ => match lookup key defs with
         | Some (Obj child) => get_path rest child
         | _ => None
         end
  end.
Proof. reflexivity. Qed.

Lemma get_path_other key v path defs :
  hd_error path <> Some key ->
  get_path path (set key v defs) = get_path path defs.
Proof.
  destruct path as [| k rest]; [reflexivity |]. simpl hd_error. intros Hne.
  assert (Hk : k <> key) by congruence.
  rewrite !get_path_cons, (lookup_set_other _ _ _ _ Hk). reflexivity.
Qed.

Lemma get_own_lookup defs key v : get defs key = Own v -> lookup key defs = Some v.
Proof.
  unfold get. destruct (lookup key defs); [congruence |].
  destruct (inherited key); discriminate.
Qed.

(** A terminal found after a walk was there before, or is the one the
    walk stored at the end of its path. *)
Lemma walk_leaves type path :
  forall defs defs' where_ t,
    walk type path defs = Done defs' ->
    get_path where_ defs' = Some (Str t) ->
    get_path where_ defs = Some (Str t) \/ (where_ = path /\ t = type).
Proof.
  induction path as [| key rest IH]; intros defs defs' where_ t H Hg.
  - simpl in H. injection H as <-. now left.
  - assert (Hterminal :
              get_path where_ (set key (Str type) defs) = Some (Str t) ->
              get_path where_ defs = Some (Str t)
              \/ (where_ = [key] /\ t = type)).
    { intros Hs. destruct where_ as [| k more]; [discriminate |].
      destruct (string_dec k key) as [-> | Hne].
      - rewrite get_path_cons, lookup_set_same in Hs.
        destruct more; [| discriminate]. injection Hs as <-. now right.
      - left. rewrite get_path_other in Hs; [exact Hs |].
        simpl. congruence. }
    assert (Hnested :
              forall child0 child,
                walk type rest child0 = Done child ->
                (child0 = [] \/ lookup key defs = Some (Obj child0)) ->
                get_path where_ (set key (Obj child) defs) = Some (Str t) ->
                get_path where_ defs = Some (Str t)
                \/ (where_ = key :: rest /\ t = type)).
    { intros child0 child W Hchild0 Hs.
      destruct where_ as [| k more]; [discriminate |].
      destruct (string_dec k key) as [-> | Hne].
      - rewrite get_path_cons, lookup_set_same in Hs.
        destruct more as [| m more]; [discriminate |].
        destruct (IH _ _ _ _ W Hs) as [Hold | [-> ->]]; [| now right].
        left. destruct Hchild0 as [-> | Hl].
        + now rewrite get_path_nil in Hold.
        + now rewrite get_path_cons, Hl.
      - left. rewrite get_path_other in Hs; [exact Hs |].
        simpl. congruence. }
    destruct rest as [| next rest].
    + rewrite walk_last in H.
      destruct (get defs key) as [| v |] eqn:G.
      * injection H as <-. auto.
      * destruct (truthy v); [destruct v |]; injection H as <-; auto.
      * injection H as <-. auto.
    + rewrite walk_more in H.
      destruct (get defs key) as [| v |] eqn:G.
      * destruct (walk type (next :: rest) []) as [c | |] eqn:W;
          try discriminate.
        injection H as <-. eauto.
      * destruct (truthy v); [destruct v as [s | child] |].
        -- destruct (off_tree (next :: rest)); try discriminate; try stuck.
           injection H as <-. auto.
        -- destruct (walk type (next :: rest) child) as [c | |] eqn:W;
             try discriminate.
           injection H as <-. apply get_own_lookup in G. eauto.
        -- destruct (walk type (next :: rest) []) as [c | |] eqn:W;
             try discriminate.
           injection H as <-. eauto.
      * stuck.
Qed.

Lemma build_leaves fs :
  forall defs defs' where_ t,
    build fs defs = Done defs' ->
    get_path where_ defs' = Some (Str t) ->
    get_path where_ defs = Some (Str t)
    \/ exists f, In f fs /\ split (name f) = where_ /\ effective_type f = t.
Proof.
  induction fs as [| f rest IH]; intros defs defs' where_ t H Hg.
  - simpl in H. injection H as <-. now left.
  - simpl in H. destruct (insert_field f defs) as [d | |] eqn:E;
      try discriminate.
    simpl in H. destruct (IH _ _ _ _ H Hg) as [Hd | (g & Hin & Hs & Ht)].
    + unfold insert_field in E.
      destruct (walk_leaves _ _ _ _ _ _ E Hd) as [Hold | [-> ->]];
        [now left |].
      right. exists f. repeat split. now left.
    + right. exists g. repeat split; auto. now right.
Qed.

(** A settled path without inherited segments has a terminal at one of
    its prefixes. *)
Lemma absorbed_prefix path :
  forall defs,
    absorbed path defs -> forallb plain path = true ->
    exists prefix more t,
      path = prefix ++ more /\ get_path prefix defs = Some (Str t) /\
      t <> EmptyString.
Proof.
  induction path as [| key rest IH]; intros defs Habs Hplain; [contradiction |].
  simpl in Hplain. apply andb_prop in Hplain as [Hkey Hrest].
  cbn [absorbed] in Habs.
  destruct (get defs key) as [| v |] eqn:G; [contradiction | |].
  - destruct Habs as [T Hv]. apply get_own_lookup in G.
    destruct v as [s | child].
    + exists [key], rest, s. repeat split; auto.
      simpl in T. apply negb_true_iff in T. now apply String.eqb_neq.
    + destruct (IH child Hv Hrest) as (prefix & more & t & -> & Hg & Ht).
      exists (key :: prefix), more, t. repeat split; auto.
      rewrite get_path_cons, G.
      destruct prefix; [discriminate | exact Hg].
  - apply get_inherited in G. unfold plain in Hkey.
    rewrite G in Hkey. discriminate.
Qed.

Lemma build_keeps_absorbed fs :
  forall path defs defs',
    absorbed path defs -> build fs defs = Done defs' -> absorbed path defs'.
Proof.
  induction fs as [| f rest IH]; intros path defs defs' Habs H.
  - simpl in H. now injection H as <-.
  - simpl in H. destruct (insert_field f defs) as [d | |] eqn:E;
      try discriminate.
    simpl in H. eapply IH; [| exact H].
    eapply absorbed_kept; eauto using effective_type_not_empty.
Qed.

(** After the loop the path of every descriptor is settled. *)
Lemma build_settles_all fs :
  forall defs defs' f,
    build fs defs = Done defs' -> In f fs -> absorbed (split (name f)) defs'.
Proof.
  induction fs as [| g rest IH]; intros defs defs' f H Hin; [contradiction |].
  simpl in H. destruct (insert_field g defs) as [d | |] eqn:E;
    try discriminate.
  simpl in H. destruct Hin as [-> | Hin].
  - eapply build_keeps_absorbed; [| exact H].
    eapply walk_settles; eauto using effective_type_not_empty, split_not_nil.
  - eapply IH; eauto.
Qed.

(** A list of descriptors whose paths are all settled is a no-op. *)
Lemma build_settled_noop fs :
  forall defs,
    (forall f, In f fs -> absorbed (split (name f)) defs) ->
    forallb (fun f => off_tree (split (name f))) fs = true ->
    build fs defs = Done defs.
Proof.
  induction fs as [| f rest IH]; intros defs Habs Hsafe; [reflexivity |].
  simpl in Hsafe. apply andb_prop in Hsafe as [Hf Hrest].
  simpl. unfold insert_field.
  rewrite (walk_settled_noop _ _ _ (Habs f (or_introl eq_refl)) Hf).
  simpl. apply IH; auto. intros g Hg. apply Habs. now right.
Qed.

End Provenance.

Section Depth.

Lemma depth_Obj defs : depth (Obj defs) = S (deepest defs).
Proof.
  reflexivity.
Qed.

Lemma deepest_In kv defs : In kv defs -> depth (snd kv) <= deepest defs.
Proof.
  induction defs as [| [k v] rest IH]; [contradiction |].
  intros [<- | Hin]; cbn [deepest snd]; [lia |].
  specialize (IH Hin). lia.
Qed.

Lemma deepest_bound n defs :
  (forall kv, In kv defs -> depth (snd kv) <= n) -> deepest defs <= n.
Proof.
  induction defs as [| [k v] rest IH]; intros H; cbn [deepest]; [lia |].
  pose proof (H (k, v) (or_introl eq_refl)) as Hv. simpl in Hv.
  assert (deepest rest <= n) by (apply IH; intros kv Hin; apply H; now right).
  lia.
Qed.

Lemma deepest_set key v defs :
  deepest (set key v defs) <= Nat.max (depth v) (deepest defs).
Proof.
  apply deepest_bound. intros kv Hin.
  apply In_set in Hin as [-> | Hin]; simpl; [lia |].
  pose proof (deepest_In _ _ Hin). lia.
Qed.

(** One walk nests no deeper than the number of its segments. *)
Lemma walk_depth type path :
  forall defs defs',
    walk type path defs = Done defs' ->
    depth (Obj defs') <= Nat.max (depth (Obj defs)) (length path).
Proof.
  induction path as [| key rest IH]; intros defs defs' H.
  - simpl in H. injection H as <-. lia.
  - assert (Hterminal :
              depth (Obj (set key (Str type) defs))
              <= Nat.max (depth (Obj defs)) (length (key :: rest))).
    { rewrite !depth_Obj. pose proof (deepest_set key (Str type) defs) as D.
      simpl in D. simpl length. lia. }
    assert (Hnested :
              forall child0 child,
                walk type rest child0 = Done child ->
                rest <> [] ->
                depth (Obj child0) <= Nat.max 1 (deepest defs) ->
                depth (Obj (set key (Obj child) defs))
                <= Nat.max (depth (Obj defs)) (length (key :: rest))).
    { intros child0 child W Hrest Hc.
      pose proof (IH _ _ W) as D.
      pose proof (deepest_set key (Obj child) defs) as S.
      assert (1 <= length rest) by (destruct rest; [congruence | simpl; lia]).
      rewrite !depth_Obj in *. simpl length. lia. }
    destruct rest as [| next rest].
    + rewrite walk_last in H.
      destruct (get defs key) as [| v |] eqn:G.
      * now injection H as <-.
      * destruct (truthy v); [destruct v |]; injection H as <-; auto; lia.
      * injection H as <-. lia.
    + rewrite walk_more in H.
      destruct (get defs key) as [| v |] eqn:G.
      * destruct (walk type (next :: rest) []) as [c | |] eqn:W;
          try discriminate.
        injection H as <-. eapply Hnested; eauto; [easy | rewrite depth_Obj; cbn [deepest]; lia].
      * destruct (truthy v); [destruct v as [s | child] |].
        -- destruct (off_tree (next :: rest)); try discriminate; try stuck.
           injection H as <-. lia.
        -- destruct (walk type (next :: rest) child) as [c | |] eqn:W;
             try discriminate.
           injection H as <-. eapply Hnested; eauto; [easy |].
           apply get_own_lookup, lookup_In, deepest_In in G. cbn [snd] in G. lia.
        -- destruct (walk type (next :: rest) []) as [c | |] eqn:W;
             try discriminate.
           injection H as <-. eapply Hnested; eauto; [easy | rewrite depth_Obj; cbn [deepest]; lia].
      * stuck.
Qed.

Lemma build_depth fs :
  forall defs defs',
    build fs defs = Done defs' ->
    depth (Obj defs') <= Nat.max (depth (Obj defs)) (longest fs).
Proof.
  induction fs as [| f rest IH]; intros defs defs' H.
  - simpl in H. injection H as <-. lia.
  - simpl in H. destruct (insert_field f defs) as [d | |] eqn:E;
      try discriminate.
    simpl in H. pose proof (IH _ _ H) as D.
    unfold insert_field in E. pose proof (walk_depth _ _ _ _ E) as W.
    cbn [longest]. lia.
Qed.

End Depth.

(** * Further properties of the flattener *)

Section FlattenerProperties.

Lemma convertSchemaToJSON_Done fields defs :
  convertSchemaToJSON fields = Done defs ->
  exists fs, fieldsSchema_parse fields = Done fs /\ flatten fs = Done defs.
Proof.
  unfold convertSchemaToJSON.
  destruct (fieldsSchema_parse fields) as [fs | |]; simpl; try discriminate.
  intros H. now exists fs.
Qed.

(** X5: every terminal of the tree [convertSchemaToJSON] returns comes
    from the input: a type string found at a path is [type || "any"] of a
    descriptor whose name, split on dots, is exactly that path. *)
Theorem terminals_come_from_descriptors
  (fields : json) (fs : list field) (defs : object)
  (path : list string) (t : string) :
  fieldsSchema_parse fields = Done fs ->
  convertSchemaToJSON fields = Done defs ->
  get_path path defs = Some (Str t) ->
  exists f, In f fs /\ split (name f) = path /\ effective_type f = t.
Proof.
  intros Hparse Hconv Hg.
  rewrite (convertSchemaToJSON_validated _ _ Hparse) in Hconv.
  destruct (build_leaves _ _ _ _ _ Hconv Hg) as [Hnil | H]; [| exact H].
  now rewrite get_path_nil in Hnil.
Qed.

Lemma terminals_come_from_descriptors_witness :
  exists f,
    In f [validated "a.b" "string"; validated "c" ""; validated "a.b" "int"]
    /\ split (name f) = ["a"; "b"] /\ effective_type f = "string".
Proof.
  apply (terminals_come_from_descriptors
           (JArr [descriptor "a.b" "string"; descriptor "c" "";
                  descriptor "a.b" "int"])
           [validated "a.b" "string"; validated "c" ""; validated "a.b" "int"]
           [("a", Obj [("b", Str "string")]); ("c", Str "any")]
           ["a"; "b"] "string"); reflexivity.
Defined.

(** X6: no descriptor is lost without a trace.  When no name of the
    input has, before its last segment, a segment that names a built-in
    property, [convertSchemaToJSON] returns a tree, and for every
    descriptor of the input whose segments are not names that object
    literals inherit, that tree holds a non-empty type string at the
    descriptor's path or at a prefix of it, and that string is
    [type || "any"] of the descriptor named by that prefix. *)
Theorem every_descriptor_is_represented
  (fields : json) (fs : list field) (f : field) :
  fieldsSchema_parse fields = Done fs ->
  forallb (fun g => off_tree (split (name g))) fs = true ->
  In f fs -> forallb plain (split (name f)) = true ->
  exists defs,
    convertSchemaToJSON fields = Done defs /\
    exists prefix more g,
      split (name f) = prefix ++ more /\
      In g fs /\ split (name g) = prefix /\
      get_path prefix defs = Some (Str (effective_type g)).
Proof.
  intros Hparse Hsafe Hin Hplain.
  rewrite (convertSchemaToJSON_validated _ _ Hparse). unfold flatten.
  destruct (build_returns fs [] Hsafe) as [defs Hconv].
  exists defs. split; [exact Hconv |].
  pose proof (build_settles_all _ _ _ _ Hconv Hin) as Habs.
  destruct (absorbed_prefix _ _ Habs Hplain) as (prefix & more & t & Hs & Hg & _).
  destruct (build_leaves _ _ _ _ _ Hconv Hg) as [Hnil | (g & Hg1 & Hg2 & Hg3)].
  - now rewrite get_path_nil in Hnil.
  - exists prefix, more, g. subst t. auto.
Qed.

Lemma every_descriptor_is_represented_witness :
  exists defs,
    convertSchemaToJSON
      (JArr [descriptor "a" "int"; descriptor "a.b.c" "string"])
    = Done defs /\
    exists prefix more g,
      split "a.b.c" = prefix ++ more /\
      In g [validated "a" "int"; validated "a.b.c" "string"] /\
      split (name g) = prefix /\
      get_path prefix defs = Some (Str (effective_type g)).
Proof.
  apply (every_descriptor_is_represented
           (JArr [descriptor "a" "int"; descriptor "a.b.c" "string"])
           [validated "a" "int"; validated "a.b.c" "string"]
           (validated "a.b.c" "string"));
    try reflexivity.
  simpl. right. left. reflexivity.
Defined.

(** X7: the tree [convertSchemaToJSON] returns is well formed at every
    level: the keys of an object are pairwise distinct, none of them is a
    name inherited from [Object.prototype], array-index keys come first in
    ascending order, and every terminal is a non-empty string. *)
Theorem built_tree_is_well_formed (fields : json) (defs : object) :
  convertSchemaToJSON fields = Done defs -> well_formed (Obj defs).
Proof.
  intros Hconv.
  destruct (convertSchemaToJSON_Done _ _ Hconv) as (fs & _ & Hflat).
  eapply build_well_formed; [apply well_formed_empty | exact Hflat].
Qed.

Lemma built_tree_is_well_formed_witness :
  well_formed
    (Obj [("1", Str "int"); ("b", Obj [("c", Str "any"); ("d", Str "x")])]).
Proof.
  apply (built_tree_is_well_formed
           (JArr [descriptor "b.c" ""; descriptor "1" "int";
                  descriptor "b.d" "x"; descriptor "toString" "y"])).
  reflexivity.
Defined.

(** X8: flattening is idempotent.  Sending descriptors of the input once
    more after it, in any order and any number of times, changes nothing:
    the result is the one of the input alone.  Names with a segment
    before the last one that names a built-in property are left aside. *)
Theorem repeated_descriptors_change_nothing (fs again : list field) :
  forallb (fun f => off_tree (split (name f))) fs = true ->
  incl again fs ->
  flatten (fs ++ again) = flatten fs.
Proof.
  intros Hsafe Hincl. unfold flatten. rewrite build_app.
  destruct (build_returns fs [] Hsafe) as [defs Hdefs].
  rewrite Hdefs. simpl.
  apply build_settled_noop.
  - intros f Hf. eapply build_settles_all; eauto.
  - apply forallb_forall. intros f Hf.
    rewrite forallb_forall in Hsafe. apply Hsafe. now apply Hincl.
Qed.

Lemma repeated_descriptors_change_nothing_witness :
  flatten ([validated "a.b" "string"; validated "a" "int"; validated "c" ""]
           ++ [validated "c" "x"; validated "a.b" "string";
               validated "a.b" "string"])
  = flatten [validated "a.b" "string"; validated "a" "int"; validated "c" ""].
Proof.
  apply (repeated_descriptors_change_nothing
           [validated "a.b" "string"; validated "a" "int"; validated "c" ""]
           [validated "c" ""; validated "a.b" "string";
            validated "a.b" "string"]).
  - reflexivity.
  - intros f Hf. simpl in *. intuition.
Defined.

(** X9: only [name] and [type] of a descriptor reach the tree.  Two
    inputs whose validated descriptors agree, one by one, on name and
    type give the same result, whatever their [unit], [hidden] and
    [description]: a descriptor marked hidden is flattened like any
    other. *)
Theorem only_name_and_type_matter (fields fields' : json) (fs fs' : list field) :
  fieldsSchema_parse fields = Done fs ->
  fieldsSchema_parse fields' = Done fs' ->
  map name fs = map name fs' -> map type fs = map type fs' ->
  convertSchemaToJSON fields = convertSchemaToJSON fields'.
Proof.
  intros Hparse Hparse' Hnames Htypes.
  rewrite (convertSchemaToJSON_validated _ _ Hparse),
          (convertSchemaToJSON_validated _ _ Hparse').
  unfold flatten. generalize (@nil (string * value)).
  clear Hparse Hparse'. revert fs' Hnames Htypes.
  induction fs as [| f rest IH]; intros [| f' rest'] Hnames Htypes defs;
    try discriminate; [reflexivity |].
  simpl in Hnames, Htypes.
  injection Hnames as Hn Hnames. injection Htypes as Ht Htypes.
  simpl. unfold insert_field, effective_type. rewrite Hn, Ht.
  destruct (walk _ _ defs); simpl; auto.
Qed.

Lemma only_name_and_type_matter_witness :
  convertSchemaToJSON
    (JArr [JObj [("name", JStr "secret.key"); ("type", JStr "string");
                 ("hidden", JBool true); ("description", JStr "do not show")]])
  = convertSchemaToJSON (JArr [descriptor "secret.key" "string"]).
Proof.
  apply (only_name_and_type_matter _ _
           [Field "secret.key" "string" "" true "do not show"]
           [validated "secret.key" "string"]); reflexivity.
Defined.

(** X10: the tree is never nested deeper than the names are long: its
    number of levels is at most the largest number of dot-separated
    segments of a name (and 1 for the root object). *)
Theorem nesting_is_bounded (fields : json) (fs : list field) (defs : object) :
  fieldsSchema_parse fields = Done fs ->
  convertSchemaToJSON fields = Done defs ->
  depth (Obj defs) <= Nat.max 1 (longest fs).
Proof.
  intros Hparse Hconv.
  rewrite (convertSchemaToJSON_validated _ _ Hparse) in Hconv.
  apply build_depth in Hconv. exact Hconv.
Qed.

Lemma nesting_is_bounded_witness :
  depth (Obj [("a", Obj [("b", Obj [("c", Str "int")])]); ("d", Str "any")])
  <= Nat.max 1 (longest [validated "a.b.c" "int"; validated "d" ""]).
Proof.
  apply (nesting_is_bounded
           (JArr [descriptor "a.b.c" "int"; descriptor "d" ""])
           [validated "a.b.c" "int"; validated "d" ""]); reflexivity.
Defined.

End FlattenerProperties.

(** * Further properties of validation *)

Section ValidationProperties.

Lemma fieldSchema_validated_object f : fieldSchema (validated_object f) = Some f.
Proof. now destruct f. Qed.

Lemma each_validated_objects fs : each (map validated_object fs) = Some fs.
Proof.
  induction fs as [| f rest IH]; [reflexivity |].
  cbn [map each]. now rewrite fieldSchema_validated_object, IH.
Qed.

Lemma validated_objects_revalidate fs :
  fieldsSchema_parse (JArr (map validated_object fs)) = Done fs
  /\ convertSchemaToJSON (JArr (map validated_object fs)) = flatten fs.
Proof.
  assert (H : fieldsSchema_parse (JArr (map validated_object fs)) = Done fs).
  { unfold fieldsSchema_parse. now rewrite each_validated_objects. }
  split; [exact H | now apply convertSchemaToJSON_validated].
Qed.

(** X11: validation is idempotent.  The objects zod returns for
    validated descriptors validate again, to the same descriptors, so the
    validation [convertSchemaToJSON] runs on input that the caller has
    already validated cannot fail and adds nothing: the call flattens
    exactly those descriptors. *)
Theorem revalidation_is_identity (fs : list field) :
  fieldsSchema_parse (JArr (map validated_object fs)) = Done fs
  /\ convertSchemaToJSON (JArr (map validated_object fs)) = flatten fs.
Proof. apply validated_objects_revalidate. Qed.

Lemma member_skip key before k v after :
  key <> k ->
  member key (before ++ (k, v) :: after) = member key (before ++ after).
Proof.
  intros Hne. induction before as [| [k' v'] rest IH]; simpl.
  - apply not_eq_sym, String.eqb_neq in Hne. now rewrite Hne.
  - now rewrite IH.
Qed.

(** X12: a member of a raw descriptor whose key is none of [name],
    [type], [unit], [hidden], [description] is ignored, wherever it
    stands and whatever it holds: validation gives the same result with
    and without it. *)
Theorem unknown_member_is_ignored
  (before after : list (string * json)) (k : string) (v : json) :
  ~ In k ["name"; "type"; "unit"; "hidden"; "description"] ->
  fieldSchema (JObj (before ++ (k, v) :: after))
  = fieldSchema (JObj (before ++ after)).
Proof.
  intros Hk. simpl in Hk.
  unfold fieldSchema.
  rewrite !(member_skip _ before k v after) by (intros E; tauto).
  reflexivity.
Qed.

Lemma unknown_member_is_ignored_witness :
  fieldSchema
    (JObj ([("name", JStr "a")] ++ ("hiden", JNum "1") :: [("type", JStr "int")]))
  = Some (Field "a" "int" "" false "").
Proof.
  rewrite (unknown_member_is_ignored
             [("name", JStr "a")] [("type", JStr "int")] "hiden" (JNum "1")).
  - reflexivity.
  - simpl. intros H. repeat (destruct H as [H | H]; [discriminate |]).
    exact H.
Defined.

End ValidationProperties.

(** * The caller *)

Section ServerProperties.

Lemma parse_shape_rejects shape input key v :
  In (key, v) shape -> check v (member key input) = None ->
  parse_shape shape input = None.
Proof.
  induction shape as [| [k w] rest IH]; intros Hin Hcheck; [contradiction |].
  cbn [parse_shape]. destruct Hin as [[= -> ->] | Hin].
  - now rewrite Hcheck.
  - rewrite (IH Hin Hcheck). now destruct (check w (member k input)).
Qed.

Lemma parse_shape_keys shape input :
  forall data, parse_shape shape input = Some data ->
               map fst data = map fst shape.
Proof.
  induction shape as [| [k w] rest IH]; intros data H.
  - injection H as <-. reflexivity.
  - cbn [parse_shape] in H.
    destruct (check w (member k input)); [| discriminate].
    destruct (parse_shape rest input) as [more |]; [| discriminate].
    injection H as <-. simpl. f_equal. now apply IH.
Qed.

Lemma parse_shape_member shape input :
  forall data key v,
    parse_shape shape input = Some data ->
    NoDup (map fst shape) -> In (key, v) shape ->
    member key data = check v (member key input).
Proof.
  induction shape as [| [k w] rest IH]; intros data key v H Hnodup Hin;
    [contradiction |].
  cbn [parse_shape] in H.
  destruct (check w (member k input)) as [value |] eqn:C; [| discriminate].
  destruct (parse_shape rest input) as [more |] eqn:P; [| discriminate].
  injection H as <-. simpl in Hnodup. inversion Hnodup as [| ? ? Hk Hrest]; subst.
  simpl. destruct Hin as [[= -> ->] | Hin].
  - now rewrite String.eqb_refl.
  - destruct (String.eqb k key) eqn:E.
    + apply String.eqb_eq in E. subst k. exfalso. apply Hk.
      change key with (fst (key, v)). now apply in_map.
    + eapply IH; eauto.
Qed.

Lemma member_override_same key v data : member key (override key v data) = Some v.
Proof.
  induction data as [| [k w] rest IH]; simpl.
  - now rewrite String.eqb_refl.
  - destruct (String.eqb k key) eqn:E; simpl; rewrite E; auto.
Qed.

Lemma member_override_other key key' v data :
  key <> key' -> member key (override key' v data) = member key data.
Proof.
  intros Hne. apply not_eq_sym, String.eqb_neq in Hne.
  induction data as [| [k w] rest IH]; simpl.
  - now rewrite Hne.
  - destruct (String.eqb k key') eqn:E; simpl.
    + apply String.eqb_eq in E. subst k. now rewrite Hne.
    + now rewrite IH.
Qed.

Lemma keys_override key v data :
  In key (map fst data) -> map fst (override key v data) = map fst data.
Proof.
  induction data as [| [k w] rest IH]; simpl; [contradiction |].
  destruct (String.eqb k key) eqn:E; simpl; [reflexivity |].
  intros [-> | Hin]; [now rewrite String.eqb_refl in E |].
  now rewrite IH.
Qed.

Lemma check_passes_value v value out :
  check v value = Some out -> v <> z_fields -> value = Some out.
Proof.
  destruct v, value as [[] |]; simpl; intros H Hv;
    try discriminate; try congruence.
Qed.

Lemma datasetInfoSchema_NoDup : NoDup (map fst datasetInfoSchema).
Proof.
  simpl. repeat (constructor; [simpl; intros H;
    repeat (destruct H as [H | H]; [discriminate |]); exact H |]).
  constructor.
Qed.

(** X13: the response must carry [quickQueries: null].  A response in
    which [quickQueries] is missing or holds anything but [null] (a list
    of saved queries, say) fails [datasetInfoSchema], so the tool throws
    the validation error and no description is produced. *)
Theorem quickQueries_must_be_null (input : list (string * json)) :
  member "quickQueries" input <> Some JNull ->
  datasetInfoSchema_parse (JObj input) = Raise ZodError /\
  getDatasetInfoAndSchema (JObj input) = Raise ZodError.
Proof.
  intros Hq.
  assert (H : datasetInfoSchema_parse (JObj input) = Raise ZodError).
  { unfold datasetInfoSchema_parse.
    rewrite (parse_shape_rejects datasetInfoSchema input "quickQueries" z_null);
      [reflexivity | simpl; tauto |].
    destruct (member "quickQueries" input) as [[] |]; simpl; congruence. }
  split; [exact H |]. unfold getDatasetInfoAndSchema. now rewrite H.
Qed.

Lemma quickQueries_must_be_null_witness :
  getDatasetInfoAndSchema (JObj (Response.sample (JArr []))) = Raise ZodError.
Proof.
  apply (quickQueries_must_be_null (Response.sample (JArr []))).
  discriminate.
Defined.

(** X14: a response that passes [datasetInfoSchema] is always described.
    The second validation and the renderer cannot fail: the handler
    flattens the validated descriptors, renders the tree with indent 2
    and returns the validated data with [fields] replaced by that text.
    Names with a segment before the last one that names a built-in
    property are left aside. *)
Theorem valid_response_is_described
  (input data : list (string * json)) (fields : json) (fs : list field) :
  datasetInfoSchema_parse (JObj input) = Done data ->
  member "fields" input = Some fields ->
  fieldsSchema_parse fields = Done fs ->
  forallb (fun f => off_tree (split (name f))) fs = true ->
  exists defs text,
    flatten fs = Done defs /\
    getStringifiedSchema defs 2 = Done text /\
    getDatasetInfoAndSchema (JObj input)
    = Done (JObj (override "fields" (JStr text) data)).
Proof.
  intros Hparse Hfields Hfs Hsafe.
  assert (Hshape : parse_shape datasetInfoSchema input = Some data).
  { unfold datasetInfoSchema_parse in Hparse.
    destruct (parse_shape datasetInfoSchema input); [congruence | discriminate]. }
  assert (Hdata : member "fields" data = Some (JArr (map validated_object fs))).
  { rewrite (parse_shape_member _ _ _ "fields" z_fields Hshape
               datasetInfoSchema_NoDup); [| simpl; tauto].
    rewrite Hfields. cbn [check]. now rewrite Hfs. }
  destruct (build_returns fs [] Hsafe) as [defs Hdefs].
  exists defs. eexists. split; [exact Hdefs |].
  split; [apply getStringifiedSchema_block; lia |].
  unfold getDatasetInfoAndSchema. rewrite Hparse. cbn [bind]. rewrite Hdata.
  rewrite (proj2 (validated_objects_revalidate fs)). unfold flatten.
  rewrite Hdefs. cbn [bind].
  rewrite (getStringifiedSchema_block defs 2) by lia. reflexivity.
Qed.

Lemma valid_response_is_described_witness :
  exists defs text,
    flatten [validated "request.method" "string";
             Field "status" "any" "" true ""] = Done defs /\
    getStringifiedSchema defs 2 = Done text /\
    getDatasetInfoAndSchema (JObj (Response.sample JNull))
    = Done (JObj (override "fields" (JStr text)
                    [ ("compressedBytes", JNum "10");
                      ("compressedBytesHuman", JStr "10 B");
                      ("created", JStr "2024");
                      ("fields",
                       JArr (map validated_object
                               [validated "request.method" "string";
                                Field "status" "any" "" true ""]));
                      ("inputBytes", JNum "20");
                      ("inputBytesHuman", JStr "20 B");
                      ("maxTime", JStr "t1"); ("minTime", JStr "t0");
                      ("name", JStr "logs"); ("numBlocks", JNum "1");
                      ("numEvents", JNum "2"); ("numFields", JNum "2");
                      ("quickQueries", JNull); ("who", JStr "me") ])).
Proof.
  apply (valid_response_is_described (Response.sample JNull) _
           (JArr [JObj [("name", JStr "request.method"); ("type", JStr "string")];
                  JObj [("name", JStr "status"); ("hidden", JBool true)]])
           [validated "request.method" "string";
            Field "status" "any" "" true ""]);
    reflexivity.
Defined.

Lemma member_In_keys key v data :
  member key data = Some v -> In key (map fst data).
Proof.
  induction data as [| [k w] rest IH]; simpl; [discriminate |].
  destruct (String.eqb k key) eqn:E.
  - apply String.eqb_eq in E. now left.
  - intros H. right. now apply IH.
Qed.

Lemma only_fields_uses_fieldsSchema key :
  In (key, z_fields) datasetInfoSchema -> key = "fields".
Proof.
  simpl. intros H.
  repeat (destruct H as [H | H]; [congruence |]). contradiction.
Qed.

(** X15: what the handler hands to [JSON.stringify] holds exactly the
    keys of [datasetInfoSchema], whatever else the response carried;
    every member but [fields] has the value the response had, and
    [fields] is a string, the rendered type description. *)
Theorem description_keeps_schema_members (input out : list (string * json)) :
  getDatasetInfoAndSchema (JObj input) = Done (JObj out) ->
  map fst out = map fst datasetInfoSchema
  /\ (forall key, In key (map fst datasetInfoSchema) -> key <> "fields" ->
                  member key out = member key input)
  /\ (exists text, member "fields" out = Some (JStr text)).
Proof.
  unfold getDatasetInfoAndSchema, datasetInfoSchema_parse.
  destruct (parse_shape datasetInfoSchema input) as [data |] eqn:Hshape;
    [| discriminate].
  cbn [bind].
  destruct (member "fields" data) as [fields |] eqn:Hfields; [| discriminate].
  destruct (convertSchemaToJSON fields) as [defs | |]; try discriminate.
  cbn [bind].
  destruct (getStringifiedSchema defs 2) as [text | |]; try discriminate.
  cbn [bind]. intros [= <-].
  repeat split.
  - rewrite keys_override by now apply member_In_keys in Hfields.
    now apply parse_shape_keys in Hshape.
  - intros key Hin Hkey.
    rewrite member_override_other by exact Hkey.
    apply in_map_iff in Hin as ([k v] & Hk & Hin). simpl in Hk. subst k.
    rewrite (parse_shape_member _ _ _ key v Hshape datasetInfoSchema_NoDup Hin).
    destruct (check v (member key input)) as [value |] eqn:C.
    + symmetry. apply (check_passes_value _ _ _ C).
      intros ->. now apply only_fields_uses_fieldsSchema in Hin.
    + now rewrite (parse_shape_rejects _ _ _ _ Hin C) in Hshape.
  - exists text. apply member_override_same.
Qed.

Lemma description_keeps_schema_members_witness :
  exists out,
    getDatasetInfoAndSchema (JObj (Response.sample JNull)) = Done (JObj out)
    /\ map fst out = map fst datasetInfoSchema
    /\ member "retention" out = None
    /\ member "numEvents" out = Some (JNum "2").
Proof.
  eexists. split; [reflexivity |].
  split.
  - apply (description_keeps_schema_members (Response.sample JNull)).
    reflexivity.
  - split; reflexivity.
Defined.

End ServerProperties.

(** * What a later descriptor can and cannot change *)

Section Persistence.

Lemma get_eq_lookup_eq defs defs' key :
  get defs' key = get defs key -> lookup key defs' = lookup key defs.
Proof.
  unfold get.
  destruct (lookup key defs'), (lookup key defs); try congruence;
    destruct (inherited key); congruence.
Qed.

Lemma walk_other_path type key rest defs defs' where_ :
  walk type (key :: rest) defs = Done defs' ->
  hd_error where_ <> Some key ->
  get_path where_ defs' = get_path where_ defs.
Proof.
  intros H Hne. destruct where_ as [| k more]; [reflexivity |].
  assert (Hk : k <> key) by (simpl in Hne; congruence).
  rewrite !get_path_cons.
  now rewrite (get_eq_lookup_eq _ _ _ (walk_other_key _ _ _ _ _ _ H Hk)).
Qed.

(** A terminal survives a walk, unless the walk ends at a proper prefix
    of its path and collapses the object that held it. *)
Lemma walk_keeps_terminal type path :
  forall defs defs' where_ t,
    walk type path defs = Done defs' ->
    get_path where_ defs = Some (Str t) -> t <> EmptyString ->
    get_path where_ defs' = Some (Str t)
    \/ exists more, where_ = path ++ more /\ more <> [].
Proof.
  induction path as [| key rest IH]; intros defs defs' where_ t H Hg Ht.
  - simpl in H. injection H as <-. now left.
  - destruct where_ as [| k more]; [discriminate |].
    destruct (string_dec k key) as [-> | Hne].
    2:{ left. rewrite (walk_other_path _ _ _ _ _ _ H); [exact Hg |].
        simpl. congruence. }
    rewrite get_path_cons in Hg.
    destruct more as [| m more].
    + (* the terminal sits under [key] itself: nothing is assigned *)
      left. pose proof (get_own _ _ _ Hg) as G.
      destruct rest as [| next rest].
      * rewrite walk_last, G, (truthy_Str _ Ht) in H. now injection H as <-.
      * rewrite walk_more, G, (truthy_Str _ Ht) in H.
        destruct (off_tree (next :: rest)); [| stuck].
        now injection H as <-.
    + destruct (lookup key defs) as [[s | child] |] eqn:L; try discriminate.
      pose proof (get_own _ _ _ L) as G.
      destruct rest as [| next rest].
      * right. exists (m :: more). split; [reflexivity | discriminate].
      * rewrite walk_more, G in H. simpl truthy in H. cbv iota in H.
        destruct (walk type (next :: rest) child) as [c | |] eqn:W;
          try discriminate.
        injection H as <-.
        destruct (IH _ _ _ _ W Hg Ht) as [Hkeep | (more' & Hm & Hne)].
        -- left. now rewrite get_path_cons, lookup_set_same.
        -- right. exists more'. split; [| exact Hne].
           simpl. now rewrite Hm.
Qed.

Lemma build_keeps_terminal fs :
  forall defs defs' where_ t,
    build fs defs = Done defs' ->
    get_path where_ defs = Some (Str t) -> t <> EmptyString ->
    get_path where_ defs' = Some (Str t)
    \/ exists f more,
         In f fs /\ where_ = split (name f) ++ more /\ more <> [].
Proof.
  induction fs as [| f rest IH]; intros defs defs' where_ t H Hg Ht.
  - simpl in H. injection H as <-. now left.
  - simpl in H. destruct (insert_field f defs) as [d | |] eqn:E;
      try discriminate.
    simpl in H. unfold insert_field in E.
    destruct (walk_keeps_terminal _ _ _ _ _ _ E Hg Ht)
      as [Hkeep | (more & Hm & Hne)].
    + destruct (IH _ _ _ _ H Hkeep Ht) as [Hend | (g & more & Hin & Hm & Hne)];
        [now left |].
      right. exists g, more. repeat split; auto. now right.
    + right. exists f, more. repeat split; auto. now left.
Qed.

(** A nested object found after a walk was a nested object before, or
    sits at a proper prefix of the walked path. *)
Lemma walk_objects type path :
  forall defs defs' where_ c,
    walk type path defs = Done defs' ->
    get_path where_ defs' = Some (Obj c) ->
    (exists c0, get_path where_ defs = Some (Obj c0))
    \/ exists more, path = where_ ++ more /\ more <> [].
Proof.
  induction path as [| key rest IH]; intros defs defs' where_ c H Hg.
  - simpl in H. injection H as <-. left. eauto.
  - destruct where_ as [| k more]; [discriminate |].
    destruct (string_dec k key) as [-> | Hne].
    2:{ left. exists c. rewrite <- (walk_other_path _ _ _ _ _ _ H); [exact Hg |].
        simpl. congruence. }
    assert (Hterminal :
              get_path (key :: more) (set key (Str type) defs) = Some (Obj c) ->
              False).
    { rewrite get_path_cons, lookup_set_same. now destruct more. }
    assert (Hnested :
              forall child0 child,
                walk type rest child0 = Done child -> rest <> [] ->
                (child0 = [] \/ lookup key defs = Some (Obj child0)) ->
                get_path (key :: more) (set key (Obj child) defs)
                = Some (Obj c) ->
                (exists c0, get_path (key :: more) defs = Some (Obj c0))
                \/ exists more', key :: rest = (key :: more) ++ more'
                                 /\ more' <> []).
    { intros child0 child W Hrest Hchild0 Hs.
      rewrite get_path_cons, lookup_set_same in Hs.
      destruct more as [| m more].
      - right. exists rest. split; [reflexivity | exact Hrest].
      - destruct (IH _ _ _ _ W Hs) as [[c0 Hold] | (more' & Hm & Hne)].
        + left. exists c0. destruct Hchild0 as [-> | Hl].
          * now rewrite get_path_nil in Hold.
          * now rewrite get_path_cons, Hl.
        + right. exists more'. split; [| exact Hne]. simpl. now rewrite Hm. }
    destruct rest as [| next rest].
    + rewrite walk_last in H.
      destruct (get defs key) as [| v |] eqn:G.
      * injection H as <-. now apply Hterminal in Hg.
      * destruct (truthy v); [destruct v |]; injection H as <-;
          try (now apply Hterminal in Hg); left; eauto.
      * injection H as <-. left. eauto.
    + rewrite walk_more in H.
      destruct (get defs key) as [| v |] eqn:G.
      * destruct (walk type (next :: rest) []) as [ch | |] eqn:W;
          try discriminate.
        injection H as <-. eapply Hnested; eauto. easy.
      * destruct (truthy v); [destruct v as [s | child] |].
        -- destruct (off_tree (next :: rest)); try discriminate; try stuck.
           injection H as <-. left. eauto.
        -- destruct (walk type (next :: rest) child) as [ch | |] eqn:W;
             try discriminate.
           injection H as <-. apply get_own_lookup in G.
           eapply Hnested; eauto. easy.
        -- destruct (walk type (next :: rest) []) as [ch | |] eqn:W;
             try discriminate.
           injection H as <-. eapply Hnested; eauto. easy.
      * stuck.
Qed.

Lemma build_objects fs :
  forall defs defs' where_ c,
    build fs defs = Done defs' ->
    get_path where_ defs' = Some (Obj c) ->
    (exists c0, get_path where_ defs = Some (Obj c0))
    \/ exists f more,
         In f fs /\ split (name f) = where_ ++ more /\ more <> [].
Proof.
  induction fs as [| f rest IH]; intros defs defs' where_ c H Hg.
  - simpl in H. injection H as <-. left. eauto.
  - simpl in H. destruct (insert_field f defs) as [d | |] eqn:E;
      try discriminate.
    simpl in H.
    destruct (IH _ _ _ _ H Hg) as [[c0 Hd] | (g & more & Hin & Hm & Hne)].
    + unfold insert_field in E.
      destruct (walk_objects _ _ _ _ _ _ E Hd) as [Hold | (more & Hm & Hne)];
        [now left |].
      right. exists f, more. repeat split; auto. now left.
    + right. exists g, more. repeat split; auto. now right.
Qed.

End Persistence.

Section PersistenceProperties.

(** X16: when no name of the input has, before its last segment, a
    segment that names a built-in property, [convertSchemaToJSON]
    returns a tree whose top-level keys are exactly the first segments
    of the descriptors' names, those that object literals inherit apart:
    every descriptor contributes its first segment, and no other key
    appears. *)
Theorem top_level_keys_are_first_segments (fields : json) (fs : list field) :
  fieldsSchema_parse fields = Done fs ->
  forallb (fun f => off_tree (split (name f))) fs = true ->
  exists defs,
    convertSchemaToJSON fields = Done defs /\
    forall k,
      In k (keys defs)
      <-> inherited k = false /\ exists f, In f fs /\ top f = k.
Proof.
  intros Hparse Hsafe.
  rewrite (convertSchemaToJSON_validated _ _ Hparse). unfold flatten.
  destruct (build_returns fs [] Hsafe) as [defs Hconv].
  exists defs. split; [exact Hconv |]. intros k.
  apply build_keys in Hconv. rewrite Hconv.
  rewrite In_enumerate_from. unfold created_tops.
  rewrite filter_In, in_map_iff. unfold plain. rewrite negb_true_iff.
  simpl. split.
  - intros [[] | [(f & Hf & Hin) Hk]]. split; [exact Hk | now exists f].
  - intros [Hk (f & Hin & Hf)]. right. split; [now exists f | exact Hk].
Qed.

Lemma top_level_keys_are_first_segments_witness :
  exists defs,
    convertSchemaToJSON
      (JArr [descriptor "request.method" "string"; descriptor "valueOf" "x"])
    = Done defs /\
    forall k,
      In k (keys defs)
      <-> inherited k = false
          /\ exists f, In f [validated "request.method" "string";
                             validated "valueOf" "x"]
                       /\ top f = k.
Proof.
  apply (top_level_keys_are_first_segments
           (JArr [descriptor "request.method" "string"; descriptor "valueOf" "x"])
           [validated "request.method" "string"; validated "valueOf" "x"]);
    reflexivity.
Defined.

(** X17: a stored type is lost only by collapse.  A type string that
    sits at a path after the first descriptors of the input is still
    there in the returned tree, unless one of the later descriptors is
    named by a proper prefix of that path; no other later descriptor can
    change or remove it. *)
Theorem terminal_is_lost_only_by_collapse
  (fields : json) (pre post : list field) (defs defs' : object)
  (path : list string) (t : string) :
  fieldsSchema_parse fields = Done (pre ++ post) ->
  flatten pre = Done defs ->
  convertSchemaToJSON fields = Done defs' ->
  get_path path defs = Some (Str t) ->
  get_path path defs' = Some (Str t)
  \/ exists f more, In f post /\ path = split (name f) ++ more /\ more <> [].
Proof.
  intros Hparse Hpre Hconv Hg.
  rewrite (convertSchemaToJSON_validated _ _ Hparse) in Hconv.
  unfold flatten in *. rewrite build_app, Hpre in Hconv. simpl in Hconv.
  assert (Ht : t <> EmptyString).
  { destruct (build_leaves _ _ _ _ _ Hpre Hg) as [Hnil | (g & _ & _ & <-)].
    - now rewrite get_path_nil in Hnil.
    - apply effective_type_not_empty. }
  exact (build_keeps_terminal _ _ _ _ _ Hconv Hg Ht).
Qed.

Lemma terminal_is_lost_only_by_collapse_witness :
  get_path ["a"; "b"] [("a", Str "bool")] = Some (Str "int")
  \/ exists f more,
       In f [validated "a.b.c" "x"; validated "a" "bool"]
       /\ ["a"; "b"] = split (name f) ++ more /\ more <> [].
Proof.
  apply (terminal_is_lost_only_by_collapse
           (JArr [descriptor "a.b" "int"; descriptor "a.b.c" "x";
                  descriptor "a" "bool"])
           [validated "a.b" "int"]
           [validated "a.b.c" "x"; validated "a" "bool"]
           [("a", Obj [("b", Str "int")])]); reflexivity.
Defined.

(** X18: nested objects are never invented.  Every nested object of the
    returned tree sits at a path that is a proper prefix of the name of
    some descriptor of the input. *)
Theorem nested_objects_are_name_prefixes
  (fields : json) (fs : list field) (defs : object)
  (path : list string) (child : object) :
  fieldsSchema_parse fields = Done fs ->
  convertSchemaToJSON fields = Done defs ->
  get_path path defs = Some (Obj child) ->
  exists f more, In f fs /\ split (name f) = path ++ more /\ more <> [].
Proof.
  intros Hparse Hconv Hg.
  rewrite (convertSchemaToJSON_validated _ _ Hparse) in Hconv.
  destruct (build_objects _ _ _ _ _ Hconv Hg) as [[c0 Hnil] | H]; [| exact H].
  now rewrite get_path_nil in Hnil.
Qed.

Lemma nested_objects_are_name_prefixes_witness :
  exists f more,
    In f [validated "a.b.c" "int"; validated "a.d" ""]
    /\ split (name f) = ["a"; "b"] ++ more /\ more <> [].
Proof.
  apply (nested_objects_are_name_prefixes
           (JArr [descriptor "a.b.c" "int"; descriptor "a.d" ""])
           [validated "a.b.c" "int"; validated "a.d" ""]
           [("a", Obj [("b", Obj [("c", Str "int")]); ("d", Str "any")])]
           ["a"; "b"] [("c", Str "int")]); reflexivity.
Defined.

End PersistenceProperties.

(** * Key order inside nested objects *)

Section NestedOrder.

Lemma build_run fs defs : build fs defs = run (steps fs) defs.
Proof.
  revert defs. induction fs as [| f rest IH]; intros defs; [reflexivity |].
  simpl. unfold insert_field.
  destruct (walk (effective_type f) (split (name f)) defs); simpl; auto.
Qed.

Lemma steps_types fs :
  Forall (fun tp : string * list string => fst tp <> EmptyString) (steps fs).
Proof.
  induction fs as [| f rest IH]; constructor; auto.
  apply effective_type_not_empty.
Qed.

Lemma below_types key l :
  Forall (fun tp : string * list string => fst tp <> EmptyString) l ->
  Forall (fun tp : string * list string => fst tp <> EmptyString) (below key l).
Proof.
  induction 1 as [| [type path] l Hty _ IH]; [constructor |].
  unfold below. simpl. destruct path as [| k rest]; [exact IH |].
  destruct (String.eqb key k); [constructor |]; auto.
Qed.

Lemma descend_types prefix :
  forall l,
    Forall (fun tp : string * list string => fst tp <> EmptyString) l ->
    Forall (fun tp : string * list string => fst tp <> EmptyString)
           (descend prefix l).
Proof.
  induction prefix as [| key prefix IH]; intros l H; [exact H |].
  simpl. now apply IH, below_types.
Qed.

(** The keys of the object the loop started from, after the loop. *)
Lemma run_keys l :
  forall current current',
    run l current = Done current' ->
    keys current' = enumerate_from (keys current) (filter plain (firsts l)).
Proof.
  induction l as [| [type path] l IH]; intros current current' H.
  - simpl in H. now injection H as <-.
  - simpl in H. destruct (walk type path current) as [c | |] eqn:W;
      try discriminate.
    simpl in H. rewrite (IH _ _ H).
    destruct path as [| key rest].
    + simpl in W. now injection W as <-.
    + rewrite (walk_keys _ _ _ _ _ W).
      unfold firsts. simpl. unfold plain at 2.
      destruct (inherited key); reflexivity.
Qed.

(** What the loop does to the value under [key] is what the walks
    through [key] do below it, as long as that value ends up a nested
    object: a walk that ends at [key] would have left a type string
    there for good. *)
Lemma run_below key l :
  Forall (fun tp : string * list string => fst tp <> EmptyString) l ->
  forall current current' child,
    run l current = Done current' ->
    lookup key current' = Some (Obj child) ->
    exists child0,
      (get current key = Own (Obj child0)
       \/ (vacant current key = true /\ child0 = []))
      /\ run (below key l) child0 = Done child.
Proof.
  induction 1 as [| [type path] l Hty _ IH]; intros current current' child H L.
  - simpl in H. injection H as <-. exists child. split; [| reflexivity].
    left. now apply get_own.
  - simpl in H. destruct (walk type path current) as [c | |] eqn:W;
      try discriminate.
    simpl in H. simpl in Hty.
    destruct (IH _ _ _ H L) as (child1 & Hseed & Hrun).
    destruct path as [| k rest].
    { simpl in W. injection W as <-. exists child1. now split. }
    unfold below. simpl. fold (below key l).
    destruct (String.eqb key k) eqn:Ek.
    2:{ apply String.eqb_neq in Ek.
        assert (G : get c key = get current key)
          by (eapply walk_other_key; eauto).
        exists child1. unfold vacant in *. rewrite G in Hseed. now split. }
    apply String.eqb_eq in Ek. subst k. simpl.
    assert (Hstr : forall t, t <> EmptyString -> get c key = Own (Str t) -> False).
    { intros t Ht G. unfold vacant in Hseed. rewrite G in Hseed.
      rewrite (truthy_Str _ Ht) in Hseed.
      destruct Hseed as [Hs | [Hs _]]; discriminate. }
    assert (Hinh : get c key = Inherited -> False).
    { intros G. unfold vacant in Hseed. rewrite G in Hseed.
      destruct Hseed as [Hs | [Hs _]]; discriminate. }
    assert (Hobj : forall inner, get c key = Own (Obj inner) -> inner = child1).
    { intros inner G. unfold vacant in Hseed. rewrite G in Hseed.
      destruct Hseed as [Hs | [Hs _]]; [congruence | discriminate]. }
    destruct rest as [| next rest].
    + (* the walk ends at [key] *)
      exfalso. rewrite walk_last in W.
      destruct (get current key) as [| v |] eqn:G.
      * injection W as <-. eapply Hstr; [exact Hty | apply get_set_same].
      * destruct (truthy v) eqn:T.
        -- destruct v as [s | inner]; injection W as <-.
           ++ apply (Hstr s); [| exact G].
              intros ->. discriminate.
           ++ eapply Hstr; [exact Hty | apply get_set_same].
        -- injection W as <-. eapply Hstr; [exact Hty | apply get_set_same].
      * injection W as <-. now apply Hinh.
    + rewrite walk_more in W.
      destruct (get current key) as [| v |] eqn:G.
      * destruct (walk type (next :: rest) []) as [inner | |] eqn:W';
          try discriminate.
        injection W as <-.
        exists []. split; [right; unfold vacant; now rewrite G |].
        cbn [run]. rewrite W'. cbn [bind]. now rewrite (Hobj inner (get_set_same _ _ _)).
      * destruct (truthy v) eqn:T.
        -- destruct v as [s | inner0].
           ++ exfalso.
              destruct (off_tree (next :: rest)); [| stuck].
              injection W as <-. apply (Hstr s); [| exact G].
              intros ->. discriminate.
           ++ destruct (walk type (next :: rest) inner0) as [inner | |] eqn:W';
                try discriminate.
              injection W as <-.
              exists inner0. split; [now left |].
              cbn [run]. rewrite W'. cbn [bind]. now rewrite (Hobj inner (get_set_same _ _ _)).
        -- destruct (walk type (next :: rest) []) as [inner | |] eqn:W';
             try discriminate.
           injection W as <-.
           exists []. split; [right; unfold vacant; now rewrite G, T |].
           cbn [run]. rewrite W'. cbn [bind]. now rewrite (Hobj inner (get_set_same _ _ _)).
      * stuck.
Qed.

(** Started from the empty object, the nested object under [key] is what
    the walks through [key] build from the empty object. *)
Lemma run_below_fresh key l current child :
  Forall (fun tp : string * list string => fst tp <> EmptyString) l ->
  run l [] = Done current ->
  lookup key current = Some (Obj child) ->
  run (below key l) [] = Done child.
Proof.
  intros Hty H L.
  destruct (run_below key l Hty _ _ _ H L) as (child0 & [G | [_ ->]] & Hrun);
    [| exact Hrun].
  unfold get in G. simpl in G. destruct (inherited key); discriminate.
Qed.

(** The same at any depth. *)
Lemma run_at prefix :
  forall l current obj,
    Forall (fun tp : string * list string => fst tp <> EmptyString) l ->
    run l [] = Done current ->
    object_at prefix current = Some obj ->
    run (descend prefix l) [] = Done obj.
Proof.
  induction prefix as [| key prefix IH]; intros l current obj Hty H Hat.
  - simpl in Hat. injection Hat as <-. exact H.
  - unfold object_at in Hat. rewrite get_path_cons in Hat.
    destruct prefix as [| next prefix].
    + destruct (lookup key current) as [[s | child] |] eqn:L; try discriminate.
      injection Hat as <-. simpl. now apply (run_below_fresh key l current).
    + destruct (lookup key current) as [[s | child] |] eqn:L; try discriminate.
      cbn [descend]. change (descend prefix (below next (below key l)))
        with (descend (next :: prefix) (below key l)).
      apply (IH (below key l) child obj).
      * now apply below_types.
      * now apply (run_below_fresh key l current).
      * exact Hat.
Qed.

(** The first segments of the walks cut at [prefix] are the segments
    that follow [prefix] in the paths. *)
Lemma firsts_descend prefix :
  forall l,
    firsts (descend prefix l)
    = flat_map (fun tp : string * list string => following prefix (snd tp)) l.
Proof.
  induction prefix as [| key prefix IH]; intros l.
  - unfold firsts. apply flat_map_ext. intros [type [| k rest]]; reflexivity.
  - cbn [descend]. rewrite IH.
    induction l as [| [type path] l IHl]; [reflexivity |].
    unfold below. cbn [flat_map]. fold (below key l).
    rewrite flat_map_app, IHl. f_equal.
    unfold following. simpl. destruct path as [| k rest]; [reflexivity |].
    destruct (String.eqb key k); simpl; [| reflexivity].
    now rewrite app_nil_r.
Qed.

Lemma firsts_steps prefix fs :
  firsts (descend prefix (steps fs)) = next_segments prefix fs.
Proof.
  rewrite firsts_descend. unfold steps, next_segments.
  induction fs as [| f rest IH]; [reflexivity |].
  simpl. now rewrite IH.
Qed.

Lemma created_at_root fs : created_at [] fs = created_tops fs.
Proof.
  unfold created_at, created_tops, next_segments. f_equal.
  induction fs as [| f rest IH]; [reflexivity |].
  simpl. rewrite IH. f_equal.
  unfold following, top. simpl.
  destruct (split (name f)) as [| k more] eqn:E; [| reflexivity].
  now apply split_not_nil in E.
Qed.

(** The keys of every object of the built tree, in enumeration order. *)
Lemma build_keys_at fs defs prefix obj :
  build fs [] = Done defs ->
  object_at prefix defs = Some obj ->
  keys obj = enumerate_from [] (created_at prefix fs).
Proof.
  intros H Hat. rewrite build_run in H.
  pose proof (run_at prefix _ _ _ (steps_types fs) H Hat) as Hrun.
  apply run_keys in Hrun. rewrite Hrun. unfold created_at.
  now rewrite firsts_steps.
Qed.

End NestedOrder.

Section NestedOrderClaims.

(** C4, amended: the renderer writes one line per key, at the top level
    and inside every nested mapping, in the order in which the object
    lists its keys.  That order is: the keys that are array indices
    (canonical decimal integers below 2^32 - 1) in ascending numeric
    order, then all other keys in the order in which the input
    descriptors first created them in that object, whatever their
    lexical order.  The keys created in the object at a path are the
    segments that follow the path in the names that extend it, names
    that object literals inherit apart.  When none of them is an array
    index, the order is exactly the first-insertion order.  This holds
    for every input none of whose names has, before its last segment, a
    segment that names a built-in property. *)
Theorem rendering_follows_key_order (fields : json) (fs : list field) :
  fieldsSchema_parse fields = Done fs ->
  forallb (fun f => off_tree (split (name f))) fs = true ->
  exists defs,
    convertSchemaToJSON fields = Done defs /\
    forall prefix obj,
      object_at prefix defs = Some obj ->
      (forall indent : Z,
         (2 <= indent)%Z ->
         getStringifiedSchema obj indent
         = Done (brace_block (Z.to_nat indent)
                   (map (entry (Z.to_nat indent)) obj)))
      /\ (exists idx,
            keys obj
            = idx ++ creation_order (filter not_index (created_at prefix fs)) /\
            ascending idx /\
            (forall k,
               In k idx <-> In k (created_at prefix fs) /\ is_index k = true))
      /\ ((forall k, In k (created_at prefix fs) -> is_index k = false) ->
          keys obj = creation_order (created_at prefix fs)).
Proof.
  intros Hparse Hsafe.
  rewrite (convertSchemaToJSON_validated _ _ Hparse). unfold flatten.
  destruct (build_returns fs [] Hsafe) as [defs Hbuild].
  exists defs. split; [exact Hbuild |].
  intros prefix obj Hat.
  pose proof (build_keys_at _ _ _ _ Hbuild Hat) as Hkeys.
  destruct (enumerate_shape (created_at prefix fs))
    as (idx & Hshape & Hasc & Hidx).
  split; [intros indent Hindent; now apply getStringifiedSchema_block |].
  split.
  - exists idx. rewrite Hkeys. auto.
  - intros Hnone. rewrite Hkeys, Hshape.
    destruct idx as [| k idx].
    + simpl. f_equal. apply forallb_filter_id. apply forallb_forall.
      intros k Hk. unfold not_index. now rewrite (Hnone k Hk).
    + destruct (proj1 (Hidx k) (or_introl eq_refl)) as [Hin Hk].
      rewrite (Hnone k Hin) in Hk. discriminate.
Qed.

Lemma rendering_follows_key_order_witness :
  exists defs,
    convertSchemaToJSON
      (JArr [descriptor "req.zeta" "int"; descriptor "n" "x";
             descriptor "req.alpha" "string"; descriptor "req.2" "bool";
             descriptor "req.zeta" "y"])
    = Done defs /\
    exists obj,
      object_at ["req"] defs = Some obj /\
      getStringifiedSchema obj 4
      = Done (brace_block 4 (map (entry 4) obj)) /\
      exists idx,
        keys obj = idx ++ ["zeta"; "alpha"] /\
        ascending idx /\
        (forall k, In k idx <->
                   In k ["zeta"; "alpha"; "2"; "zeta"] /\ is_index k = true).
Proof.
  destruct (rendering_follows_key_order
              (JArr [descriptor "req.zeta" "int"; descriptor "n" "x";
                     descriptor "req.alpha" "string"; descriptor "req.2" "bool";
                     descriptor "req.zeta" "y"])
              [validated "req.zeta" "int"; validated "n" "x";
               validated "req.alpha" "string"; validated "req.2" "bool";
               validated "req.zeta" "y"]
              eq_refl eq_refl) as (defs & Hconv & Hall).
  exists defs. split; [exact Hconv |].
  assert (Hdefs : defs
                  = [("req", Obj [("2", Str "bool"); ("zeta", Str "int");
                                  ("alpha", Str "string")]);
                     ("n", Str "x")]).
  { vm_compute in Hconv. now injection Hconv as <-. }
  exists [("2", Str "bool"); ("zeta", Str "int"); ("alpha", Str "string")].
  split; [now rewrite Hdefs |].
  destruct (Hall ["req"]
              [("2", Str "bool"); ("zeta", Str "int"); ("alpha", Str "string")])
    as (Hrender & Horder & _); [now rewrite Hdefs |].
  split; [apply (Hrender 4%Z); lia | exact Horder].
Defined.

End NestedOrderClaims.

Section CollapseClaim.

(** C2, as stated for every input, fails: when the shorter name already
    holds a type string, the longer name creates no nested mapping and
    the later descriptor of the shorter name changes nothing. *)
Lemma collapse_needs_a_nested_object :
  split "a.b" = split "a" ++ ["b"]
  /\ convertSchemaToJSON
       (JArr [descriptor "a" "int"; descriptor "a.b" "string";
              descriptor "a" "bool"])
     = Done [("a", Str "int")]
  /\ get_path (split "a") [("a", Str "int")] <> Some (Str "bool").
Proof.
  repeat split. discriminate.
Qed.

(** C2, amended: when the path of a descriptor holds a nested mapping at
    the moment the descriptor is processed (an earlier, longer name
    created it and no type string was stored there before), the terminal
    assignment replaces that mapping: the tree then maps the path to the
    descriptor's type, not to a nested mapping.  The returned tree still
    does, unless a descriptor processed after it is named by a proper
    prefix of that path; in particular it does when the descriptor is
    the last one of the input.  All this applies to every two-descriptor
    input whose first name extends the second by further segments
    (segments that object literals inherit left aside). *)
Theorem collapse_to_terminal (later : field) :
  (forall fields pre post defs child,
     fieldsSchema_parse fields = Done (pre ++ later :: post) ->
     flatten pre = Done defs ->
     get_path (split (name later)) defs = Some (Obj child) ->
     (exists defs1,
        insert_field later defs = Done defs1 /\
        get_path (split (name later)) defs1
        = Some (Str (effective_type later)))
     /\ (post = [] ->
         exists defs',
           convertSchemaToJSON fields = Done defs' /\
           get_path (split (name later)) defs'
           = Some (Str (effective_type later)))
     /\ (forall defs',
           convertSchemaToJSON fields = Done defs' ->
           get_path (split (name later)) defs'
           = Some (Str (effective_type later))
           \/ exists f more,
                In f post /\
                split (name later) = split (name f) ++ more /\ more <> []))
  /\ (forall fields earlier more,
        fieldsSchema_parse fields = Done [earlier; later] ->
        split (name earlier) = split (name later) ++ more -> more <> [] ->
        forallb plain (split (name earlier)) = true ->
        exists defs',
          convertSchemaToJSON fields = Done defs' /\
          get_path (split (name later)) defs'
          = Some (Str (effective_type later))).
Proof.
  split.
  - intros fields pre post defs child Hparse Hpre Hobj.
    rewrite (convertSchemaToJSON_validated _ _ Hparse).
    unfold flatten in *. rewrite build_app, Hpre. cbn [bind build].
    unfold insert_field.
    destruct (walk_collapses (effective_type later) _ _ _ Hobj)
      as (defs1 & -> & Hg).
    cbn [bind]. split; [eauto |]. split.
    + intros ->. simpl. eauto.
    + intros defs' Hpost.
      exact (build_keeps_terminal _ _ _ _ _ Hpost Hg
               (effective_type_not_empty later)).
  - intros fields earlier more Hparse Hext Hmore Hplain.
    rewrite (convertSchemaToJSON_validated _ _ Hparse).
    unfold flatten. simpl. unfold insert_field at 1. rewrite Hext in *.
    assert (Hnil : split (name later) ++ more <> []).
    { intros H. apply app_eq_nil in H as [H _]. now apply split_not_nil in H. }
    destruct (walk_unclaimed_prefix (effective_type earlier)
                (split (name later)) more [] (split_not_nil _) Hmore
                (unclaimed_fresh _ Hnil Hplain))
      as (defs & child & -> & Hobj).
    simpl. unfold insert_field.
    destruct (walk_collapses (effective_type later) _ _ _ Hobj)
      as (defs' & -> & Hg).
    simpl. eauto.
Qed.

Lemma collapse_to_terminal_witness :
  (exists defs1,
     insert_field (validated "a" "int")
       [("a", Obj [("b", Str "string")]); ("c", Str "x")] = Done defs1 /\
     get_path (split "a") defs1 = Some (Str "int"))
  /\ (exists defs',
        convertSchemaToJSON
          (JArr [descriptor "a.b" "string"; descriptor "c" "x";
                 descriptor "a" "int"])
        = Done defs' /\
        get_path (split "a") defs' = Some (Str "int"))
  /\ (exists defs',
        convertSchemaToJSON
          (JArr [descriptor "req.id.hi" "string"; descriptor "req.id" "int"])
        = Done defs' /\
        get_path (split "req.id") defs' = Some (Str "int"))
  /\ (get_path (split "req.id") [("req", Str "x")] = Some (Str "int")
      \/ exists f more,
           In f [validated "req" "x"] /\
           split "req.id" = split (name f) ++ more /\ more <> []).
Proof.
  destruct (proj1 (collapse_to_terminal (validated "a" "int"))
              (JArr [descriptor "a.b" "string"; descriptor "c" "x";
                     descriptor "a" "int"])
              [validated "a.b" "string"; validated "c" "x"] []
              [("a", Obj [("b", Str "string")]); ("c", Str "x")]
              [("b", Str "string")] eq_refl eq_refl eq_refl)
    as (Hstep & Hlast & _).
  split; [exact Hstep |]. split; [exact (Hlast eq_refl) |]. split.
  - apply (proj2 (collapse_to_terminal (validated "req.id" "int"))
             (JArr [descriptor "req.id.hi" "string"; descriptor "req.id" "int"])
             (validated "req.id.hi" "string") ["hi"]);
      [reflexivity | reflexivity | discriminate | reflexivity].
  - destruct (proj1 (collapse_to_terminal (validated "req.id" "int"))
                (JArr [descriptor "req.id.hi" "string";
                       descriptor "req.id" "int"; descriptor "req" "x"])
                [validated "req.id.hi" "string"] [validated "req" "x"]
                [("req", Obj [("id", Obj [("hi", Str "string")])])]
                [("hi", Str "string")] eq_refl eq_refl eq_refl)
      as (_ & _ & Hfinal).
    apply Hfinal. reflexivity.
Defined.

End CollapseClaim.
